(** * nba-predictor: odds aggregation, feature cache, scoring and ranking

    A shallow embedding of the core of the repository
    (tools/features.py, tools/injuries.py, tools/odds_tool.py,
    tools/cache.py, tools/stats_tool.py and chains.py) together with the
    properties its specification states about it.

    Modelling conventions.
    - A Python [int] is a [Z].  A Python [float] is a rational [Q]: the
      arithmetic is exact, comparisons are those of the rationals, and two
      floats are "the same" when they are [==].  Rounding error, infinities
      and NaN are outside this model.
    - [None] is [None]; an [Optional[T]] is an [option T].
    - A raised exception is the [Raise] branch of [result].
    - Python truthiness ([x or d], [if not x]) is written out: [None], the
      empty string and a zero number are falsy.
    - Modules carry the names of the source files; definitions carry the
      names of the source functions. *)

From Stdlib Require Import ZArith QArith Qabs Qround Qminmax Lqa Lia Bool List String Ascii.
From Stdlib Require Import Permutation Sorted.
From stdpp Require Import gmap strings.
Import ListNotations.

Local Open Scope Z_scope.
Local Open Scope Q_scope.

(* ================================================================== *)
(** * Part I: the program *)
(* ================================================================== *)

(** ** Python primitives *)

Inductive exn : Type :=
| ZeroDivisionError
| HTTPStatusError.

Inductive result (A : Type) : Type :=
| Ok (a : A)
| Raise (e : exn).
Arguments Ok {A} a.
Arguments Raise {A} e.

Definition rbind {A B} (m : result A) (k : A -> result B) : result B :=
  match m with
  | Ok a => k a
  | Raise e => Raise e
  end.

Notation "'let?' x ':=' m 'in' k" := (rbind m (fun x => k))
  (at level 10, x name, m at level 100, k at level 200).

(** [x / y] on floats (and the true division of two ints). *)
Definition truediv (x y : Q) : result Q :=
  if Qeq_bool y 0 then Raise ZeroDivisionError else Ok (x / y).

(** Truthiness of an [Optional[float]] and of an [Optional[str]]. *)
Definition truthy_float (x : option Q) : bool :=
  match x with
  | None => false
  | Some v => negb (Qeq_bool v 0)
  end.

Definition truthy_str (s : option string) : bool :=
  match s with
  | None => false
  | Some s => negb (String.eqb s "")
  end.

(** [x or d] for an [Optional[float]] [x] and a float [d]. *)
Definition or_float (x : option Q) (d : Q) : Q :=
  match x with
  | Some v => if Qeq_bool v 0 then d else v
  | None => d
  end.

(** [a or b] for two [Optional[str]]. *)
Definition or_str (a b : option string) : option string :=
  if truthy_str a then a else b.

(** [>=] and [>] on floats. *)
Definition Qge_bool (x y : Q) : bool := Qle_bool y x.
Definition Qgt_bool (x y : Q) : bool := negb (Qle_bool x y).
Definition Qlt_bool (x y : Q) : bool := negb (Qle_bool y x).

(** [round(x, 4)]: the nearest multiple of 1/10000, halves to the even
    neighbour. *)
Definition round_half_even (x : Q) : Z :=
  let n := Qfloor x in
  let r := x - inject_Z n in
  if Qlt_bool r (1 # 2) then n
  else if Qlt_bool (1 # 2) r then (n + 1)%Z
  else if Z.even n then n else (n + 1)%Z.

Definition round4 (x : Q) : Q := inject_Z (round_half_even (x * 10000)) / 10000.

(** [max(0.0, f)]: Python's [max] returns its first argument unless a later
    one is strictly greater. *)
Definition max0 (f : Q) : Q := if Qgt_bool f 0 then f else 0.

(** [max(a, b)] on floats, by the same rule. *)
Definition max2 (a b : Q) : Q := if Qgt_bool b a then b else a.

(** [round(x, 2)]. *)
Definition round2 (x : Q) : Q := inject_Z (round_half_even (x * 100)) / 100.

(** ** tools/features.py *)

Module features.

Definition american_to_implied (odds : option Z) : option Q :=
  match odds with
  | None => None
  | Some odds =>
      if (odds <? 0)%Z then
        Some (inject_Z (- odds) / inject_Z (- odds + 100))
      else if (odds >? 0)%Z then
        Some (100 / inject_Z (odds + 100))
      else None
  end.

(** The profit-if-win multiplier both [ev_from_prob] and [kelly_fraction]
    compute first. *)
Definition profit (odds : Z) : result Q :=
  if (odds >? 0)%Z then truediv (inject_Z odds) 100
  else truediv 100 (inject_Z (- odds)).

Definition ev_from_prob (p : Q) (odds : Z) : result Q :=
  let? profit := profit odds in
  Ok (p * profit - (1 - p)).

(** [kelly_fraction] from the point where [b] is known. *)
Definition kelly_of_b (p b : Q) : result Q :=
  let q := 1 - p in
  let numer := p * (b + 1) - 1 in
  let denom := b in
  if Qeq_bool denom 0 then Ok 0
  else
    let? f := truediv numer denom in
    Ok (max0 f).

Definition kelly_fraction (p : Q) (odds : Z) : result Q :=
  let? b := profit odds in
  kelly_of_b p b.

(** [str.strip] (ASCII white space). *)
Definition is_space (c : ascii) : bool :=
  let n := nat_of_ascii c in
  ((9 <=? n) && (n <=? 13) || (28 <=? n) && (n <=? 32))%nat.

Fixpoint lstrip (s : string) : string :=
  match s with
  | String c t => if is_space c then lstrip t else s
  | EmptyString => EmptyString
  end.

Fixpoint rstrip (s : string) : string :=
  match s with
  | String c t =>
      match rstrip t with
      | EmptyString => if is_space c then EmptyString else String c EmptyString
      | t' => String c t'
      end
  | EmptyString => EmptyString
  end.

Definition strip (s : string) : string := rstrip (lstrip s).

(** [TEAM_NAME_TO_ID] is filled from data/teams.csv when the module is
    loaded; here it is an argument. *)
Definition get_team_id (TEAM_NAME_TO_ID : gmap string Z)
    (team_name : option string) : option Z :=
  if negb (truthy_str team_name) then None
  else
    let name := strip (default "" team_name) in
    TEAM_NAME_TO_ID !! name.

Record feature_row : Type := {
  home_team_id : Z;
  away_team_id : Z;
}.

Definition build_feature_row (TEAM_NAME_TO_ID : gmap string Z)
    (home_team away_team : option string)
    (home_feats away_feats : gmap string Q) : feature_row :=
  let home_id := get_team_id TEAM_NAME_TO_ID home_team in
  let away_id := get_team_id TEAM_NAME_TO_ID away_team in
  {| home_team_id := default (-1)%Z home_id;
     away_team_id := default (-2)%Z away_id |}.

End features.

(** ** tools/injuries.py *)

Module injuries.

(** What [open(path)] followed by [json.load] finds: nothing usable
    ([None]: no file, not JSON, not an object), or the object's items in
    file order, each value either convertible by [float] or not. *)
Definition injuries_file : Type := option (list (string * option Q)).

(** The dict comprehension [{str(k): float(v) for k, v in data.items()}];
    a value [float] rejects raises, which the caller turns into [{}]. *)
Fixpoint comprehension (items : list (string * option Q))
    (acc : gmap string Q) : option (gmap string Q) :=
  match items with
  | [] => Some acc
  | (k, Some v) :: rest => comprehension rest (<[k := v]> acc)
  | (_, None) :: _ => None
  end.

Definition _load_adjustments (file : injuries_file) : gmap string Q :=
  match file with
  | None => ∅
  | Some items =>
      match comprehension items ∅ with
      | Some adj => adj
      | None => ∅
      end
  end.

Definition clamp (x lo hi : Q) : Q :=
  if Qgt_bool x hi then hi else if Qlt_bool x lo then lo else x.

(** [adj.get(team, 0.0)].  The keys are strings, so a [None] name (which
    the annotations exclude but [dict.get] accepts) finds the default. *)
Definition get (adj : gmap string Q) (team : option string) (d : Q) : Q :=
  default d (team ≫= (fun t => adj !! t)).

Definition adjust_home_prob (file : injuries_file)
    (home_team away_team : option string) (p_home : Q) : Q :=
  let adj := _load_adjustments file in
  let dh := get adj home_team 0 in
  let da := get adj away_team 0 in
  clamp (p_home + dh - da) 0.01 0.99.

End injuries.

(** ** tools/odds_tool.py *)

Module odds_tool.

Definition _american_payout_per_dollar (american : Z) : result Q :=
  let a := inject_Z american in
  if Qge_bool a 100 then truediv a 100
  else truediv 100 (Qabs a).

Definition _choose_better_moneyline (current new : option Z)
    : result (option Z) :=
  match new, current with
  | None, _ => Ok current
  | Some _, None => Ok new
  | Some n, Some c =>
      let? pn := _american_payout_per_dollar n in
      let? pc := _american_payout_per_dollar c in
      Ok (if Qgt_bool pn pc then new else current)
  end.

(** *** The upstream JSON (what [self._get] returns) *)

Record outcome : Type := {
  o_name : option string;
  o_price : option Z;
  o_point : option Q;
}.

Record market : Type := {
  m_key : option string;
  m_outcomes : list outcome;      (* [m.get("outcomes", []) or []] *)
}.

Record bookmaker : Type := {
  bk_markets : list market;       (* [bk.get("markets", [])] *)
}.

Record event : Type := {
  ev_id : option string;
  ev_commence_time : option string;
  ev_home_team : option string;
  ev_homeTeam : option string;
  ev_away_team : option string;
  ev_awayTeam : option string;
  ev_teams : option (list string);
  ev_bookmakers : list bookmaker; (* [g.get("bookmakers", [])] *)
}.

(** *** The normalised record ([rec])

    The three market dicts share key names ("home_price", ...); the
    fields carry the market's name in front to tell them apart. *)

Record h2h_market : Type := {
  h2h_home_price : option Z;
  h2h_away_price : option Z;
}.

Record spreads_market : Type := {
  spreads_home_point : option Q;
  spreads_home_price : option Z;
  spreads_away_point : option Q;
  spreads_away_price : option Z;
}.

Record totals_market : Type := {
  totals_over_point : option Q;
  totals_over_price : option Z;
  totals_under_point : option Q;
  totals_under_price : option Z;
}.

Record market_set : Type := {
  h2h : h2h_market;
  spreads : spreads_market;
  totals : totals_market;
}.

Record game : Type := {
  id : option string;
  commence_time : option string;
  home_team : option string;
  away_team : option string;
  markets : market_set;
}.

Definition empty_markets : market_set := {|
  h2h := {| h2h_home_price := None; h2h_away_price := None |};
  spreads := {| spreads_home_point := None; spreads_home_price := None;
                spreads_away_point := None; spreads_away_price := None |};
  totals := {| totals_over_point := None; totals_over_price := None;
               totals_under_point := None; totals_under_price := None |};
|}.

(** *** String helpers: [str.lower] and [needle in hay] (ASCII) *)

Definition lower_ascii (c : ascii) : ascii :=
  let n := nat_of_ascii c in
  if ((65 <=? n) && (n <=? 90))%nat then ascii_of_nat (n + 32) else c.

Fixpoint lower (s : string) : string :=
  match s with
  | EmptyString => EmptyString
  | String c t => String (lower_ascii c) (lower t)
  end.

Fixpoint contains (needle hay : string) : bool :=
  String.prefix needle hay ||
  match hay with
  | EmptyString => false
  | String _ t => contains needle t
  end.

(** *** Team names *)

(** [home], [away] as the loop head computes them. *)
Definition resolve_home (g : event) : option string :=
  or_str (ev_home_team g) (ev_homeTeam g).

Definition resolve_away (g : event) : option string :=
  let home := resolve_home g in
  let away := or_str (ev_away_team g) (ev_awayTeam g) in
  if negb (truthy_str away) then
    let teams := default [] (ev_teams g) in
    match teams with
    | [t0; t1] =>
        if truthy_str home then
          if negb (bool_decide (Some t0 = home)) then Some t0 else Some t1
        else away
    | _ => away
    end
  else away.

(** *** One outcome entry of one market *)

Definition h2h_outcome (home away : option string)
    (m : h2h_market) (o : outcome) : result h2h_market :=
  let name := o_name o in
  let price := o_price o in
  if bool_decide (name = home) then
    let? better := _choose_better_moneyline (h2h_home_price m) price in
    Ok {| h2h_home_price := better; h2h_away_price := h2h_away_price m |}
  else if bool_decide (name = away) then
    let? better := _choose_better_moneyline (h2h_away_price m) price in
    Ok {| h2h_home_price := h2h_home_price m; h2h_away_price := better |}
  else Ok m.

Definition spreads_outcome (home away : option string)
    (m : spreads_market) (o : outcome) : result spreads_market :=
  let name := o_name o in
  let price := o_price o in
  let point := o_point o in
  if bool_decide (name = home) then
    let current := spreads_home_price m in
    let? better := _choose_better_moneyline current price in
    if negb (bool_decide (better = current)) then
      Ok {| spreads_home_point := point; spreads_home_price := better;
            spreads_away_point := spreads_away_point m;
            spreads_away_price := spreads_away_price m |}
    else Ok m
  else if bool_decide (name = away) then
    let current := spreads_away_price m in
    let? better := _choose_better_moneyline current price in
    if negb (bool_decide (better = current)) then
      Ok {| spreads_home_point := spreads_home_point m;
            spreads_home_price := spreads_home_price m;
            spreads_away_point := point; spreads_away_price := better |}
    else Ok m
  else Ok m.

Definition totals_outcome (m : totals_market) (o : outcome)
    : result totals_market :=
  let desc := lower (default "" (o_name o)) in
  let price := o_price o in
  let point := o_point o in
  if contains "over" desc then
    let current := totals_over_price m in
    let? better := _choose_better_moneyline current price in
    if negb (bool_decide (better = current)) then
      Ok {| totals_over_point := point; totals_over_price := better;
            totals_under_point := totals_under_point m;
            totals_under_price := totals_under_price m |}
    else Ok m
  else if contains "under" desc then
    let current := totals_under_price m in
    let? better := _choose_better_moneyline current price in
    if negb (bool_decide (better = current)) then
      Ok {| totals_over_point := totals_over_point m;
            totals_over_price := totals_over_price m;
            totals_under_point := point; totals_under_price := better |}
    else Ok m
  else Ok m.

(** *** The loops *)

Fixpoint foldM {S A : Type} (f : S -> A -> result S) (s : S) (l : list A)
    : result S :=
  match l with
  | [] => Ok s
  | x :: l' => let? s' := f s x in foldM f s' l'
  end.

Fixpoint mapM {A B : Type} (f : A -> result B) (l : list A)
    : result (list B) :=
  match l with
  | [] => Ok []
  | x :: l' =>
      let? y := f x in
      let? ys := mapM f l' in
      Ok (y :: ys)
  end.

(** The body of [for o in outcomes], dispatched on the market key. *)
Definition outcome_step (home away : option string) (key : option string)
    (ms : market_set) (o : outcome) : result market_set :=
  if bool_decide (key = Some "h2h") then
    let? m := h2h_outcome home away (h2h ms) o in
    Ok {| h2h := m; spreads := spreads ms; totals := totals ms |}
  else if bool_decide (key = Some "spreads") then
    let? m := spreads_outcome home away (spreads ms) o in
    Ok {| h2h := h2h ms; spreads := m; totals := totals ms |}
  else if bool_decide (key = Some "totals") then
    let? m := totals_outcome (totals ms) o in
    Ok {| h2h := h2h ms; spreads := spreads ms; totals := m |}
  else Ok ms.

Definition market_step (home away : option string)
    (ms : market_set) (m : market) : result market_set :=
  foldM (outcome_step home away (m_key m)) ms (m_outcomes m).

Definition bookmaker_step (home away : option string)
    (ms : market_set) (bk : bookmaker) : result market_set :=
  foldM (market_step home away) ms (bk_markets bk).

(** The body of [for g in data]: the record appended to [games]. *)
Definition aggregate (g : event) : result game :=
  let home := resolve_home g in
  let away := resolve_away g in
  let? ms := foldM (bookmaker_step home away) empty_markets
               (ev_bookmakers g) in
  Ok {| id := ev_id g; commence_time := ev_commence_time g;
        home_team := home; away_team := away; markets := ms |}.

(** [response] is what [self._get] produced: the decoded list, or the
    exception of [raise_for_status]. *)
Definition get_nba_odds (response : result (list event))
    : result (list game) :=
  let? data := response in
  mapM aggregate data.

End odds_tool.

(** ** The world the feature cache runs in

    The wall clock ([time.time()], seconds), the cache directory (one file
    per team id: modification time and what [pd.read_csv] makes of it), and
    the number of live calls made to the stats service so far. *)

Inductive cell : Type :=
| Num (q : Q)
| Text (s : string)
| Missing.

(** A game-log row: column name to cell.  A [DataFrame] is its rows;
    [df.empty] is "no rows". *)
Definition row : Type := gmap string cell.
Definition DataFrame : Type := list row.

Definition empty (df : DataFrame) : bool :=
  match df with
  | [] => true
  | _ :: _ => false
  end.

Record file : Type := {
  mtime : Q;
  csv : option DataFrame;           (* [None]: [pd.read_csv] raises *)
}.

Record world : Type := {
  clock : Q;
  disk : gmap Z file;
  writable : bool;                  (* [False]: [df.to_csv] raises *)
  live_calls : nat;
}.

Definition sleep (d : Q) (w : world) : world :=
  {| clock := clock w + d; disk := disk w; writable := writable w;
     live_calls := live_calls w |}.

(** ** tools/cache.py *)

Module cache.

Definition read_df_cache (w : world) (team_id : Z) (max_age_hours : Q)
    : option DataFrame :=
  match disk w !! team_id with
  | None => None
  | Some f =>
      let age_sec := clock w - mtime f in
      if Qgt_bool age_sec (max_age_hours * 3600) then None
      else csv f
  end.

Definition write_df_cache (w : world) (team_id : Z) (df : DataFrame)
    : world :=
  if writable w then
    {| clock := clock w;
       disk := <[team_id := {| mtime := clock w; csv := Some df |}]> (disk w);
       writable := writable w; live_calls := live_calls w |}
  else w.

End cache.

(** ** tools/stats_tool.py *)

Module stats_tool.

(** One live call [TeamGameLog(...).get_data_frames()[0]]: a frame, or an
    exception; either way after some time. *)
Inductive response : Type :=
| Frame (latency : Q) (df : DataFrame)
| Failure (latency : Q).

(** What the module takes from its surroundings. *)
Record env : Type := {
  teams : gmap string Z;          (* [_teams_by_fullname]: name to id *)
  CACHE_HOURS : Q;                (* [NBA_CACHE_HOURS], default 6 *)
  service : Z -> nat -> response; (* the stats service: team id and the
                                     number of calls made before *)
  sort_by_date : DataFrame -> DataFrame;
                                  (* [sort_values("GAME_DATE", ...)] when
                                     the column is there *)
  window_features : DataFrame -> gmap string Q;
                                  (* the [feats] dict of a non-empty
                                     window *)
}.

Definition _nba_sleep (w : world) : world := sleep 0.6 w.

Definition call_service (E : env) (team_id : Z) (w : world)
    : response * world :=
  let r := service E team_id (live_calls w) in
  let latency := match r with Frame l _ => l | Failure l => l end in
  (r, {| clock := clock w + latency; disk := disk w;
         writable := writable w; live_calls := S (live_calls w) |}).

(** [for i in range(attempts)], with [remaining] iterations to go.
    [None]: the loop ran out. *)
Fixpoint fetch_loop (E : env) (team_id : Z) (remaining : nat) (i : nat)
    (w : world) : option DataFrame * world :=
  match remaining with
  | O => (None, w)
  | S remaining' =>
      let w := _nba_sleep w in
      let '(r, w) := call_service E team_id w in
      match r with
      | Frame _ df =>
          if negb (empty df) then
            (Some df, cache.write_df_cache w team_id df)
          else fetch_loop E team_id remaining' (S i) w
      | Failure _ =>
          let w := sleep (1 + inject_Z (Z.of_nat i)) w in
          fetch_loop E team_id remaining' (S i) w
      end
  end.

Definition _fetch_team_gamelog (E : env) (w : world) (team_id : Z)
    (attempts : nat) : DataFrame * world :=
  match fetch_loop E team_id attempts 0 w with
  | (Some df, w) => (df, w)
  | (None, w) =>
      match cache.read_df_cache w team_id 9999 with
      | Some cached => (cached, w)
      | None => ([], w)
      end
  end.

(** The "try valid cache first" block of [rolling_team_features]. *)
Definition cached_or_fetched (E : env) (w : world) (team_id : Z)
    : DataFrame * world :=
  match cache.read_df_cache w team_id (CACHE_HOURS E) with
  | Some cached => (cached, w)
  | None => _fetch_team_gamelog E w team_id 2
  end.

Definition rolling_team_features (E : env) (w : world)
    (team_full_name : option string) (last_n : nat)
    : gmap string Q * world :=
  match team_full_name ≫= (fun n => teams E !! n) with
  | None => (∅, w)
  | Some team_id =>
      let '(df, w) := cached_or_fetched E w team_id in
      if empty df then (∅, w)
      else
        let df := firstn last_n (sort_by_date E df) in
        if empty df then (∅, w)
        else (window_features E df, w)
  end.

End stats_tool.

(** ** chains.py *)

Module chains.

Import odds_tool.

(** What the pipeline takes from its surroundings. *)
Record config : Type := {
  SKIP_STATS : bool;                        (* [SKIP_STATS == "1"] *)
  MODEL : features.feature_row -> Q;        (* [MODEL.predict_proba] *)
  TEAM_NAME_TO_ID : gmap string Z;          (* of tools/features.py *)
  injuries_json : injuries.injuries_file;   (* the injuries file *)
  to_eastern : option string -> option string;
  stats : stats_tool.env;
}.

Definition fetch_odds (response : result (list event))
    : result (list game) :=
  let? games := get_nba_odds response in
  Ok (List.filter
        (fun g => truthy_str (home_team g) && truthy_str (away_team g))
        games).

(** [{**g, "home_feats": ..., "away_feats": ...}]. *)
Record game_with_feats : Type := {
  g : game;
  home_feats : gmap string Q;
  away_feats : gmap string Q;
}.

(** The second loop of [add_team_features]; the lookups it makes are
    logged in call order. *)
Fixpoint lookup_features (C : config) (w : world) (games : list game)
    : list game_with_feats * list (option string) * world :=
  match games with
  | [] => ([], [], w)
  | g :: rest =>
      let home := home_team g in
      let away := away_team g in
      let '(home_feats, w) :=
        stats_tool.rolling_team_features (stats C) w home 10 in
      let '(away_feats, w) :=
        stats_tool.rolling_team_features (stats C) w away 10 in
      let '(out, log, w) := lookup_features C w rest in
      ({| g := g; home_feats := home_feats; away_feats := away_feats |}
         :: out,
       home :: away :: log, w)
  end.

Definition add_team_features (C : config) (w : world) (games : list game)
    : list game_with_feats * list (option string) * world :=
  if SKIP_STATS C then
    (List.map (fun g => {| g := g; home_feats := ∅; away_feats := ∅ |})
       games, [], w)
  else lookup_features C w games.

(** The dict [rec] of [score_vs_market], nested keys flattened
    ([rec["ev"]["home"]] is [ev_home]). *)
Record scored : Type := {
  s_commence_time : option string;
  s_home : option string;
  s_away : option string;
  moneyline_home : option Z;
  moneyline_away : option Z;
  s_spreads : spreads_market;
  s_totals : totals_market;
  model_home_win_prob : Q;
  model_away_win_prob : Q;
  market_implied_home : option Q;
  market_implied_away : option Q;
  edge_home : option Q;
  edge_away : option Q;
  ev_home : option Q;
  ev_away : option Q;
  kelly_home : option Q;
  kelly_away : option Q;
}.

(** [f(p, ml) if ml is not None else None]. *)
Definition when_priced (f : Q -> Z -> result Q) (p : Q) (ml : option Z)
    : result (option Q) :=
  match ml with
  | None => Ok None
  | Some ml => let? v := f p ml in Ok (Some v)
  end.

Definition score_game (C : config) (gf : game_with_feats) : result scored :=
  let home := home_team (g gf) in
  let away := away_team (g gf) in
  let row := features.build_feature_row (TEAM_NAME_TO_ID C) home away
               (home_feats gf) (away_feats gf) in
  let p_home := MODEL C row in
  let p_home := injuries.adjust_home_prob (injuries_json C) home away p_home in
  let p_away := 1 - p_home in
  let home_ml := h2h_home_price (h2h (markets (g gf))) in
  let away_ml := h2h_away_price (h2h (markets (g gf))) in
  let imp_home := features.american_to_implied home_ml in
  let imp_away := features.american_to_implied away_ml in
  let? ev_home := when_priced features.ev_from_prob p_home home_ml in
  let? kelly_home := when_priced features.kelly_fraction p_home home_ml in
  let? ev_away := when_priced features.ev_from_prob p_away away_ml in
  let? kelly_away := when_priced features.kelly_fraction p_away away_ml in
  Ok {| s_commence_time := to_eastern C (commence_time (g gf));
        s_home := home;
        s_away := away;
        moneyline_home := home_ml;
        moneyline_away := away_ml;
        s_spreads := spreads (markets (g gf));
        s_totals := totals (markets (g gf));
        model_home_win_prob := round4 p_home;
        model_away_win_prob := round4 p_away;
        market_implied_home := option_map round4 imp_home;
        market_implied_away := option_map round4 imp_away;
        edge_home :=
          option_map (fun _ => round4 (p_home - or_float imp_home 0)) imp_home;
        edge_away :=
          option_map (fun _ => round4 (p_away - or_float imp_away 0)) imp_away;
        ev_home := option_map round4 ev_home;
        ev_away := option_map round4 ev_away;
        kelly_home := option_map round4 kelly_home;
        kelly_away := option_map round4 kelly_away |}.

Definition score_vs_market (C : config) (games : list game_with_feats)
    : result (list scored) :=
  mapM (score_game C) games.

(** [{**g, "best_side": ..., "best_metric": ..., "metric_name": ...}]. *)
Record recommendation : Type := {
  rec : scored;
  best_side : string;
  best_metric : option Q;
  metric_name : string;
}.

(** The body of the loop of [rank_recs]. *)
Definition pick (g : scored) : recommendation :=
  let home_ev := ev_home g in
  let away_ev := ev_away g in
  if negb (bool_decide (home_ev = None)) || negb (bool_decide (away_ev = None))
  then
    let best_side :=
      if Qge_bool (or_float home_ev (-9)) (or_float away_ev (-9))
      then "home"%string else "away"%string in
    let best_metric :=
      if String.eqb best_side "home" then home_ev else away_ev in
    {| rec := g; best_side := best_side; best_metric := best_metric;
       metric_name := "EV" |}
  else
    let home_edge := edge_home g in
    let away_edge := edge_away g in
    let best_side :=
      if Qge_bool (or_float home_edge (-9)) (or_float away_edge (-9))
      then "home"%string else "away"%string in
    let best_metric :=
      if String.eqb best_side "home" then home_edge else away_edge in
    {| rec := g; best_side := best_side; best_metric := best_metric;
       metric_name := "edge" |}.

(** The sort key [lambda r: r["best_metric"] if ... is not None else -999]. *)
Definition sort_key (r : recommendation) : Q :=
  match best_metric r with
  | Some m => m
  | None => -999
  end.

(** [items.sort(key=..., reverse=True)].  [list.sort] is stable, and with
    [reverse=True] elements of equal key still keep their original order:
    each element goes behind the ones of strictly greater key and before
    the later ones of equal or smaller key. *)
Fixpoint insert_desc {A : Type} (key : A -> Q) (x : A) (l : list A) : list A :=
  match l with
  | [] => [x]
  | y :: l' =>
      if Qgt_bool (key y) (key x) then y :: insert_desc key x l'
      else x :: l
  end.

Definition sort_desc {A : Type} (key : A -> Q) (l : list A) : list A :=
  List.fold_right (insert_desc key) [] l.

Definition rank_recs (scored : list scored) : list recommendation :=
  let items := List.map pick scored in
  sort_desc sort_key items.

(** [NBA_CHAIN]. *)
Definition NBA_CHAIN (C : config) (response : result (list event))
    (w : world)
    : result (list recommendation * list (option string) * world) :=
  let? games := fetch_odds response in
  let '(with_feats, log, w) := add_team_features C w games in
  let? scored := score_vs_market C with_feats in
  Ok (rank_recs scored, log, w).

End chains.

(** ** app.py (the filter and the stake sizes of the dashboard) *)

Module app.

Import chains.

Definition passes_filters (r : recommendation) (min_ev min_kelly : Q) : bool :=
  let ev_home := default (-999) (ev_home (rec r)) in
  let ev_away := default (-999) (ev_away (rec r)) in
  let k_home := default 0 (kelly_home (rec r)) in
  let k_away := default 0 (kelly_away (rec r)) in
  Qge_bool (max2 ev_home ev_away) min_ev &&
  Qge_bool (max2 k_home k_away) min_kelly.

(** [recs = [r for r in recs if passes_filters(r, min_ev, min_kelly)]]. *)
Definition filter_recs (min_ev min_kelly : Q) (recs : list recommendation)
    : list recommendation :=
  List.filter (fun r => passes_filters r min_ev min_kelly) recs.

(** [k_factor = 0.5 if hk else 1.0]. *)
Definition k_factor (hk : bool) : Q := if hk then 0.5 else 1.

(** [round(bk * k * k_factor, 2) if bk else 0.0], with [k] the record's
    Kelly fraction [or 0.0]; [bk] is the bankroll, [hk] the half-Kelly
    switch. *)
Definition stake (hk : bool) (bk : Q) (kelly : option Q) : Q :=
  let k := or_float kelly 0 in
  if negb (Qeq_bool bk 0) then round2 (bk * k * k_factor hk) else 0.

Definition stake_home (hk : bool) (bk : Q) (r : recommendation) : Q :=
  stake hk bk (kelly_home (rec r)).

Definition stake_away (hk : bool) (bk : Q) (r : recommendation) : Q :=
  stake hk bk (kelly_away (rec r)).

End app.

(** ** tools/model.py *)

Module model.

(** [WinProbModel]: the unpickled classifier when models/win_model.pkl
    could be loaded ([self.trained]), nothing otherwise.  The classifier
    is known here only by the probability it gives a feature row
    ([self.model.predict_proba(X)[0][1]]). *)
Definition WinProbModel : Type := option (Z -> Z -> Q).

Definition predict_proba (self : WinProbModel)
    (feature_row : features.feature_row) : Q :=
  match self with
  | Some model =>
      model (features.home_team_id feature_row)
            (features.away_team_id feature_row)
  | None => 0.5
  end.

End model.

(* ================================================================== *)
(** * Part II: properties *)
(* ================================================================== *)

(** ** Comparisons on [Q] as propositions *)

Lemma Qle_bool_false (x y : Q) : Qle_bool x y = false <-> y < x.
Proof.
  split; intros H.
  - apply Qnot_le_lt. intros Hle. apply Qle_bool_iff in Hle. congruence.
  - destruct (Qle_bool x y) eqn:E; [|reflexivity].
    apply Qle_bool_iff in E. apply Qlt_not_le in H. contradiction.
Qed.

Lemma Qeq_bool_false (x y : Q) : Qeq_bool x y = false <-> ~ x == y.
Proof.
  split; intros H.
  - intros Heq. apply Qeq_bool_iff in Heq. congruence.
  - destruct (Qeq_bool x y) eqn:E; [|reflexivity].
    apply Qeq_bool_iff in E. contradiction.
Qed.

Lemma Qge_bool_iff (x y : Q) : Qge_bool x y = true <-> y <= x.
Proof. unfold Qge_bool. apply Qle_bool_iff. Qed.

Lemma Qgt_bool_iff (x y : Q) : Qgt_bool x y = true <-> y < x.
Proof.
  unfold Qgt_bool. rewrite negb_true_iff. apply Qle_bool_false.
Qed.

Lemma Qgt_bool_false (x y : Q) : Qgt_bool x y = false <-> x <= y.
Proof.
  unfold Qgt_bool. rewrite negb_false_iff. apply Qle_bool_iff.
Qed.

Lemma Qlt_bool_iff (x y : Q) : Qlt_bool x y = true <-> x < y.
Proof.
  unfold Qlt_bool. rewrite negb_true_iff. apply Qle_bool_false.
Qed.

Lemma Qlt_bool_false (x y : Q) : Qlt_bool x y = false <-> y <= x.
Proof.
  unfold Qlt_bool. rewrite negb_false_iff. apply Qle_bool_iff.
Qed.

(** Split on every comparison in the goal, leaving its meaning as a
    hypothesis. *)
Ltac qcases :=
  repeat match goal with
  | |- context [Qgt_bool ?x ?y] =>
      let H := fresh "Hc" in
      destruct (Qgt_bool x y) eqn:H;
      [apply Qgt_bool_iff in H | apply Qgt_bool_false in H]
  | |- context [Qlt_bool ?x ?y] =>
      let H := fresh "Hc" in
      destruct (Qlt_bool x y) eqn:H;
      [apply Qlt_bool_iff in H | apply Qlt_bool_false in H]
  | |- context [Qge_bool ?x ?y] =>
      let H := fresh "Hc" in
      destruct (Qge_bool x y) eqn:H;
      [apply Qge_bool_iff in H | apply Qle_bool_false in H]
  | |- context [Qeq_bool ?x ?y] =>
      let H := fresh "Hc" in
      destruct (Qeq_bool x y) eqn:H;
      [apply Qeq_bool_iff in H | apply Qeq_bool_false in H]
  end.

Lemma inject_Z_pos (z : Z) : (0 < z)%Z -> 0 < inject_Z z.
Proof. intros H. unfold Qlt. simpl. lia. Qed.

Lemma inject_Z_nonzero (z : Z) : z <> 0%Z -> ~ inject_Z z == 0.
Proof.
  intros H Heq. unfold Qeq in Heq. simpl in Heq. lia.
Qed.

Lemma truediv_ok (x y : Q) : ~ y == 0 -> truediv x y = Ok (x / y).
Proof.
  intros H. unfold truediv. apply Qeq_bool_false in H. now rewrite H.
Qed.

Lemma max0_Qmax (f : Q) : max0 f == Qmax 0 f.
Proof.
  unfold max0. qcases.
  - symmetry. apply Q.max_r. lra.
  - symmetry. apply Q.max_l. lra.
Qed.

Lemma max0_nonneg (f : Q) : 0 <= max0 f.
Proof. unfold max0. qcases; lra. Qed.

(** ** Scorer: implied probability, expected value, Kelly fraction *)

Section Scorer.

Import features.

(** The formulas as the specification words them. *)
Definition implied_probability (a : Z) : Q :=
  if (a <? 0)%Z then inject_Z (- a) / (inject_Z (- a) + 100)
  else 100 / (inject_Z a + 100).

Definition profit_if_win (a : Z) : Q :=
  if (a >? 0)%Z then inject_Z a / 100
  else 100 / inject_Z (Z.abs a).

Lemma profit_defined (a : Z) :
  a <> 0%Z -> exists b, profit a = Ok b /\ b == profit_if_win a /\ 0 < b.
Proof.
  intros Ha. unfold profit, profit_if_win.
  destruct (a >? 0)%Z eqn:E.
  - apply Z.gtb_lt in E.
    exists (inject_Z a / 100). split; [|split].
    + apply truediv_ok. lra.
    + reflexivity.
    + apply Qlt_shift_div_l; [lra|].
      pose proof (inject_Z_pos a E). lra.
  - assert (Hneg : (a < 0)%Z).
    { destruct (Z.gtb_spec a 0); [discriminate | lia]. }
    exists (100 / inject_Z (- a)). split; [|split].
    + apply truediv_ok. apply inject_Z_nonzero. lia.
    + replace (Z.abs a) with (- a)%Z by lia. reflexivity.
    + apply Qlt_shift_div_l.
      * apply inject_Z_pos. lia.
      * lra.
Qed.

(** C5.  For negative odds [a] the implied probability is
    (-a)/((-a)+100), for positive odds it is 100/(a+100), and absent odds
    give no value.  At -150 it is 0.6; at +200 it is 100/300, which
    rounds to 0.3333. *)
Theorem american_to_implied_correct :
  (forall a : Z, a <> 0%Z ->
     exists v, american_to_implied (Some a) = Some v /\
               v == implied_probability a) /\
  american_to_implied None = None /\
  (exists v, american_to_implied (Some (-150)%Z) = Some v /\ v == 0.6) /\
  (exists v, american_to_implied (Some 200%Z) = Some v /\
             v == 100 / 300 /\ round4 v == 0.3333).
Proof.
  split; [|split; [|split]].
  - intros a Ha. unfold american_to_implied, implied_probability.
    destruct (a <? 0)%Z eqn:E.
    + eexists. split; [reflexivity|].
      rewrite inject_Z_plus. reflexivity.
    + apply Z.ltb_ge in E.
      assert (Hpos : (a >? 0)%Z = true) by (apply Z.gtb_lt; lia).
      rewrite Hpos. eexists. split; [reflexivity|].
      rewrite inject_Z_plus. reflexivity.
  - reflexivity.
  - eexists. split; [reflexivity|]. reflexivity.
  - eexists. split; [reflexivity|]. split; reflexivity.
Qed.

Lemma american_to_implied_correct_witness :
  exists v, american_to_implied (Some (-110)%Z) = Some v /\
            v == implied_probability (-110).
Proof.
  apply (proj1 american_to_implied_correct (-110)%Z). lia.
Defined.

(** C6.  For nonzero odds [a] the expected value per unit stake is
    p * profit - (1 - p), with profit a/100 when a > 0 and 100/|a|
    otherwise.  At p = 0.5 and a = +100 the profit is 1 and the expected
    value is 0. *)
Theorem ev_from_prob_correct :
  (forall (p : Q) (a : Z), a <> 0%Z ->
     exists v, ev_from_prob p a = Ok v /\
               v == p * profit_if_win a - (1 - p)) /\
  (exists b, profit 100 = Ok b /\ b == 1) /\
  (exists v, ev_from_prob 0.5 100 = Ok v /\ v == 0).
Proof.
  split; [|split].
  - intros p a Ha.
    destruct (profit_defined a Ha) as (b & Hb & Hbs & _).
    unfold ev_from_prob. rewrite Hb. simpl.
    eexists. split; [reflexivity|]. rewrite Hbs. reflexivity.
  - eexists. split; [reflexivity|]. reflexivity.
  - eexists. split; [reflexivity|]. reflexivity.
Qed.

Lemma ev_from_prob_correct_witness :
  exists v, ev_from_prob 0.6 (-150) = Ok v /\
            v == 0.6 * profit_if_win (-150) - (1 - 0.6).
Proof.
  apply (proj1 ev_from_prob_correct 0.6 (-150)%Z). lia.
Defined.

(** C7.  For nonzero odds [a], with b the profit-if-win multiplier, the
    Kelly fraction is max(0, (p*(b+1) - 1)/b) and is never negative; b is
    strictly positive, and the code still answers 0 for a zero b instead
    of dividing.  At p = 0.5 and a = +100, b is 1 and the fraction is 0. *)
Theorem kelly_fraction_correct :
  (forall (p : Q) (a : Z), 0 < p < 1 -> a <> 0%Z ->
     exists b f,
       profit a = Ok b /\ b == profit_if_win a /\ 0 < b /\
       kelly_fraction p a = Ok f /\
       f == Qmax 0 ((p * (b + 1) - 1) / b) /\ 0 <= f) /\
  (forall p b : Q, b == 0 -> kelly_of_b p b = Ok 0) /\
  (exists b f, profit 100 = Ok b /\ b == 1 /\
               kelly_fraction 0.5 100 = Ok f /\ f == 0).
Proof.
  split; [|split].
  - intros p a _ Ha.
    destruct (profit_defined a Ha) as (b & Hb & Hbs & Hpos).
    exists b, (max0 ((p * (b + 1) - 1) / b)).
    repeat split; try assumption.
    + unfold kelly_fraction. rewrite Hb. simpl. unfold kelly_of_b.
      assert (Hnz : Qeq_bool b 0 = false) by (apply Qeq_bool_false; lra).
      rewrite Hnz. rewrite truediv_ok by lra. reflexivity.
    + apply max0_Qmax.
    + apply max0_nonneg.
  - intros p b Hb. unfold kelly_of_b.
    apply Qeq_bool_iff in Hb. now rewrite Hb.
  - exists (100 / 100), 0. repeat split; reflexivity.
Qed.

Lemma kelly_fraction_correct_witness :
  exists b f,
    profit (-150) = Ok b /\ b == profit_if_win (-150) /\ 0 < b /\
    kelly_fraction 0.65 (-150) = Ok f /\
    f == Qmax 0 ((0.65 * (b + 1) - 1) / b) /\ 0 <= f.
Proof.
  apply (proj1 kelly_fraction_correct 0.65 (-150)%Z).
  - split; reflexivity.
  - lia.
Defined.

End Scorer.

(** ** ProbabilityAdjuster *)

Section Adjuster.

Import injuries.

(** A team's offset: its entry in the mapping, 0 when it has none. *)
Definition offset (adj : gmap string Q) (team : option string) : Q :=
  match team with
  | Some t => match adj !! t with Some v => v | None => 0 end
  | None => 0
  end.

Lemma get_offset (adj : gmap string Q) (team : option string) :
  get adj team 0 = offset adj team.
Proof.
  unfold get, offset. destruct team as [t|]; simpl; [|reflexivity].
  now destruct (adj !! t).
Qed.

Lemma clamp_min_max (x lo hi : Q) :
  lo <= hi -> clamp x lo hi == Qmax lo (Qmin x hi).
Proof.
  intros Hlh. unfold clamp. qcases.
  - rewrite Q.min_r by lra. rewrite Q.max_r by lra. reflexivity.
  - rewrite Q.min_l by lra. rewrite Q.max_l by lra. reflexivity.
  - rewrite Q.min_l by lra. rewrite Q.max_r by lra. reflexivity.
Qed.

Lemma clamp_bounds (x lo hi : Q) :
  lo <= hi -> lo <= clamp x lo hi <= hi.
Proof. intros Hlh. unfold clamp. qcases; lra. Qed.

(** C8.  The adjusted probability is
    clamp(p + offset(home) - offset(away), 0.01, 0.99), a team without an
    entry counting 0, and so lies in [0.01, 0.99]. *)
Theorem adjust_home_prob_clamped
    (file : injuries_file) (home away : option string) (p : Q) :
  let adj := _load_adjustments file in
  adjust_home_prob file home away p
    == Qmax 0.01 (Qmin (p + offset adj home - offset adj away) 0.99) /\
  0.01 <= adjust_home_prob file home away p <= 0.99 /\
  (forall t : string, adj !! t = None -> offset adj (Some t) = 0).
Proof.
  intros adj. unfold adjust_home_prob. fold adj.
  rewrite !get_offset. split; [|split].
  - apply clamp_min_max. lra.
  - apply clamp_bounds. lra.
  - intros t Ht. unfold offset. now rewrite Ht.
Qed.

Lemma adjust_home_prob_clamped_witness :
  offset (_load_adjustments (Some [("Boston Celtics"%string, Some (-0.06))]))
    (Some "Memphis Grizzlies"%string) = 0.
Proof.
  apply (proj2 (proj2 (adjust_home_prob_clamped
                         (Some [("Boston Celtics"%string, Some (-0.06))])
                         None None 0.5))).
  reflexivity.
Defined.

Lemma comprehension_malformed (items : list (string * option Q)) :
  (exists k, In (k, None) items) ->
  forall acc, comprehension items acc = None.
Proof.
  intros [k Hin]. induction items as [|[k' [v|]] rest IH]; intros acc.
  - destruct Hin.
  - simpl. apply IH. destruct Hin as [Heq|Hin]; [congruence | assumption].
  - reflexivity.
Qed.

(** C10.  With no entry for either team (in particular with an empty
    mapping, which is what a missing or malformed file gives),
    [adjust_home_prob] returns p for p in [0.01, 0.99], 0.01 for smaller
    p and 0.99 for larger p. *)
Theorem adjust_home_prob_no_adjustment :
  (forall (file : injuries_file) (home away : option string) (p : Q),
     offset (_load_adjustments file) home = 0 ->
     offset (_load_adjustments file) away = 0 ->
     (0.01 <= p <= 0.99 -> adjust_home_prob file home away p == p) /\
     (p < 0.01 -> adjust_home_prob file home away p == 0.01) /\
     (0.99 < p -> adjust_home_prob file home away p == 0.99)) /\
  _load_adjustments None = ∅ /\
  (forall items k, In (k, None) items -> _load_adjustments (Some items) = ∅) /\
  (forall (file : injuries_file) (team : option string),
     _load_adjustments file = ∅ -> offset (_load_adjustments file) team = 0).
Proof.
  split; [|split; [|split]].
  - intros file home away p Hh Ha.
    unfold adjust_home_prob. rewrite !get_offset, Hh, Ha.
    unfold clamp. repeat split; intros Hp; qcases; lra.
  - reflexivity.
  - intros items k Hin. unfold _load_adjustments.
    rewrite comprehension_malformed; [reflexivity | eauto].
  - intros file team Hempty. rewrite Hempty. unfold offset.
    destruct team as [t|]; [|reflexivity]. now rewrite lookup_empty.
Qed.

Lemma adjust_home_prob_no_adjustment_witness :
  adjust_home_prob None (Some "Boston Celtics"%string)
    (Some "Memphis Grizzlies"%string) 0.5 == 0.5 /\
  adjust_home_prob (Some [("Boston Celtics"%string, None)])
    (Some "Boston Celtics"%string) (Some "Memphis Grizzlies"%string) 1.5
    == 0.99.
Proof.
  split.
  - apply (proj1 adjust_home_prob_no_adjustment None); try reflexivity.
    split; discriminate.
  - apply (proj1 adjust_home_prob_no_adjustment
             (Some [("Boston Celtics"%string, None)])); reflexivity.
Defined.

End Adjuster.

(** ** OddsAggregator: the best-price comparator *)

Section BestPrice.

Import odds_tool.

(** Payout per dollar as the specification words it: a/100 for odds of at
    least +100, 100/|a| below. *)
Definition payout_per_dollar (a : Z) : Q :=
  if (a >=? 100)%Z then inject_Z a / 100
  else 100 / inject_Z (Z.abs a).

(** American odds: at least +100, or negative. *)
Definition american (a : Z) : Prop := (100 <= a)%Z \/ (a < 0)%Z.

Lemma american_nonzero (a : Z) : american a -> a <> 0%Z.
Proof. unfold american. lia. Qed.

Lemma payout_defined (a : Z) :
  a <> 0%Z ->
  exists v, _american_payout_per_dollar a = Ok v /\
            v == payout_per_dollar a /\ 0 < v.
Proof.
  intros Ha. unfold _american_payout_per_dollar, payout_per_dollar.
  destruct (Qge_bool (inject_Z a) 100) eqn:E.
  - apply Qge_bool_iff in E.
    assert (Hge : (100 <= a)%Z).
    { unfold Qle in E. simpl in E. lia. }
    assert (Hb : (a >=? 100)%Z = true) by (apply Z.geb_le; lia).
    rewrite Hb. exists (inject_Z a / 100). split; [|split].
    + apply truediv_ok. lra.
    + reflexivity.
    + apply Qlt_shift_div_l; lra.
  - apply Qle_bool_false in E.
    assert (Hlt : (a < 100)%Z).
    { unfold Qlt in E. simpl in E. lia. }
    assert (Hb : (a >=? 100)%Z = false).
    { destruct (Z.geb_spec a 100); [lia | reflexivity]. }
    rewrite Hb. exists (100 / inject_Z (Z.abs a)). split; [|split].
    + apply (truediv_ok 100 (inject_Z (Z.abs a))).
      apply inject_Z_nonzero. lia.
    + reflexivity.
    + apply Qlt_shift_div_l; [apply inject_Z_pos; lia | lra].
Qed.

(** What [_choose_better_moneyline] does with two prices that are there
    and not zero. *)
Lemma choose_both (c n : Z) :
  c <> 0%Z -> n <> 0%Z ->
  _choose_better_moneyline (Some c) (Some n)
  = Ok (if Qgt_bool (payout_per_dollar n) (payout_per_dollar c)
        then Some n else Some c).
Proof.
  intros Hc Hn.
  destruct (payout_defined c Hc) as (pc & Hpc & Hpcs & _).
  destruct (payout_defined n Hn) as (pn & Hpn & Hpns & _).
  unfold _choose_better_moneyline. rewrite Hpn, Hpc. simpl.
  unfold Qgt_bool. now rewrite Hpns, Hpcs.
Qed.

(** C3.  Of two prices for the same side the comparator picks the one
    with the larger payout per dollar (a/100 for a >= 100, 100/|a| for
    negative a); on equal payouts it keeps the current one. *)
Theorem choose_better_moneyline_correct (current new : Z) :
  american current -> american new ->
  (exists pc pn,
     _american_payout_per_dollar current = Ok pc /\
     pc == payout_per_dollar current /\
     _american_payout_per_dollar new = Ok pn /\
     pn == payout_per_dollar new) /\
  (payout_per_dollar current < payout_per_dollar new ->
   _choose_better_moneyline (Some current) (Some new) = Ok (Some new)) /\
  (payout_per_dollar new < payout_per_dollar current ->
   _choose_better_moneyline (Some current) (Some new) = Ok (Some current)) /\
  (payout_per_dollar new == payout_per_dollar current ->
   _choose_better_moneyline (Some current) (Some new) = Ok (Some current)).
Proof.
  intros Hc Hn.
  apply american_nonzero in Hc. apply american_nonzero in Hn.
  split; [|split; [|split]].
  - destruct (payout_defined current Hc) as (pc & Hpc & Hpcs & _).
    destruct (payout_defined new Hn) as (pn & Hpn & Hpns & _).
    exists pc, pn. auto.
  - intros H. rewrite choose_both by assumption.
    apply Qgt_bool_iff in H. now rewrite H.
  - intros H. rewrite choose_both by assumption.
    assert (E : Qgt_bool (payout_per_dollar new) (payout_per_dollar current)
                = false) by (apply Qgt_bool_false; lra).
    now rewrite E.
  - intros H. rewrite choose_both by assumption.
    assert (E : Qgt_bool (payout_per_dollar new) (payout_per_dollar current)
                = false) by (apply Qgt_bool_false; lra).
    now rewrite E.
Qed.

Lemma choose_better_moneyline_correct_witness :
  _choose_better_moneyline (Some (-110)%Z) (Some 120%Z) = Ok (Some 120%Z) /\
  _choose_better_moneyline (Some 100%Z) (Some (-100)%Z) = Ok (Some 100%Z).
Proof.
  split.
  - apply (choose_better_moneyline_correct (-110) 120);
      [right; lia | left; lia | reflexivity].
  - apply (choose_better_moneyline_correct 100 (-100));
      [left; lia | right; lia | reflexivity].
Defined.

End BestPrice.

(** ** OddsAggregator: folding the quotes *)

Section Aggregation.

Import odds_tool.

(** The six places of a record that hold a best price; the four of the
    spread and total markets hold a point next to it. *)
Inductive slot : Type :=
| H2HHome | H2HAway
| SpreadsHome | SpreadsAway
| TotalsOver | TotalsUnder.

#[local] Instance slot_eq_dec : EqDecision slot.
Proof. solve_decision. Defined.

Definition slot_price (s : slot) (ms : market_set) : option Z :=
  match s with
  | H2HHome => h2h_home_price (h2h ms)
  | H2HAway => h2h_away_price (h2h ms)
  | SpreadsHome => spreads_home_price (spreads ms)
  | SpreadsAway => spreads_away_price (spreads ms)
  | TotalsOver => totals_over_price (totals ms)
  | TotalsUnder => totals_under_price (totals ms)
  end.

Definition slot_point (s : slot) (ms : market_set) : option Q :=
  match s with
  | H2HHome | H2HAway => None
  | SpreadsHome => spreads_home_point (spreads ms)
  | SpreadsAway => spreads_away_point (spreads ms)
  | TotalsOver => totals_over_point (totals ms)
  | TotalsUnder => totals_under_point (totals ms)
  end.

(** The point a quote brings to a slot (none for a moneyline). *)
Definition quote_point (s : slot) (o : outcome) : option Q :=
  match s with
  | H2HHome | H2HAway => None
  | _ => o_point o
  end.

(** The slot an outcome entry of a market with key [key] is compared
    against, if any. *)
Definition routed (home away key : option string) (o : outcome)
    : option slot :=
  let by_name (h a : slot) :=
    if bool_decide (o_name o = home) then Some h
    else if bool_decide (o_name o = away) then Some a
    else None in
  if bool_decide (key = Some "h2h"%string) then by_name H2HHome H2HAway
  else if bool_decide (key = Some "spreads"%string) then
    by_name SpreadsHome SpreadsAway
  else if bool_decide (key = Some "totals"%string) then
    let desc := lower (default ""%string (o_name o)) in
    if contains "over" desc then Some TotalsOver
    else if contains "under" desc then Some TotalsUnder
    else None
  else None.

(** A stored price, or a quoted one, that is there is not zero. *)
Definition nonzero (p : option Z) : Prop :=
  match p with
  | Some a => a <> 0%Z
  | None => True
  end.

Definition prices_nonzero (ms : market_set) : Prop :=
  forall s, nonzero (slot_price s ms).

Lemma market_set_ext (a b : market_set) :
  (forall s, slot_price s a = slot_price s b /\
             slot_point s a = slot_point s b) ->
  a = b.
Proof.
  intros H.
  destruct a as [[? ?] [? ? ? ?] [? ? ? ?]], b as [[? ?] [? ? ? ?] [? ? ? ?]].
  pose proof (H H2HHome) as [? _]. pose proof (H H2HAway) as [? _].
  pose proof (H SpreadsHome) as [? ?]. pose proof (H SpreadsAway) as [? ?].
  pose proof (H TotalsOver) as [? ?]. pose proof (H TotalsUnder) as [? ?].
  simpl in *. congruence.
Qed.

(** *** The comparator on optional prices *)

(** [n] pays strictly more than [c]. *)
Definition pays_more (n c : Z) : Prop :=
  payout_per_dollar c < payout_per_dollar n.

Inductive chosen (current new : option Z) : option Z -> Prop :=
| chosen_absent : new = None -> chosen current new current
| chosen_first n : current = None -> new = Some n -> chosen current new new
| chosen_better c n :
    current = Some c -> new = Some n -> pays_more n c ->
    chosen current new new
| chosen_kept c n :
    current = Some c -> new = Some n -> ~ pays_more n c ->
    chosen current new current.

Lemma choose_chosen (current new : option Z) :
  nonzero current -> nonzero new ->
  exists better,
    _choose_better_moneyline current new = Ok better /\
    chosen current new better.
Proof.
  intros Hc Hn. destruct new as [n|], current as [c|]; simpl in *.
  - eexists. split; [now apply choose_both|].
    destruct (Qgt_bool (payout_per_dollar n) (payout_per_dollar c)) eqn:E.
    + apply Qgt_bool_iff in E. now apply (chosen_better _ _ c n).
    + apply Qgt_bool_false in E.
      apply (chosen_kept _ _ c n); try reflexivity.
      unfold pays_more. lra.
  - eexists. split; [reflexivity|]. now apply (chosen_first _ _ n).
  - eexists. split; [reflexivity|]. now apply chosen_absent.
  - eexists. split; [reflexivity|]. now apply chosen_absent.
Qed.

Lemma chosen_nonzero (current new better : option Z) :
  chosen current new better -> nonzero current -> nonzero new ->
  nonzero better.
Proof. intros H Hc Hn. destruct H; assumption. Qed.

(** Offering the same price again chooses the stored one. *)
Lemma chosen_again (current new better : option Z) :
  chosen current new better -> chosen better new better.
Proof.
  intros H. destruct H as [Hn | n Hc Hn | c n Hc Hn Hm | c n Hc Hn Hm].
  - now apply chosen_absent.
  - subst. apply (chosen_kept _ _ n n); try reflexivity.
    unfold pays_more. lra.
  - subst. apply (chosen_kept _ _ n n); try reflexivity.
    unfold pays_more. lra.
  - now apply (chosen_kept _ _ c n).
Qed.

Lemma chosen_functional (current new b1 b2 : option Z) :
  chosen current new b1 -> chosen current new b2 -> b1 = b2.
Proof.
  intros H1 H2.
  destruct H1 as [Hn | n Hc Hn | c n Hc Hn Hm | c n Hc Hn Hm];
    destruct H2 as [Hn' | n' Hc' Hn' | c' n' Hc' Hn' Hm' | c' n' Hc' Hn' Hm'];
    subst; try congruence;
    try (exfalso; injection Hc' as <-; injection Hn' as <-; contradiction).
Qed.

(** *** One outcome entry *)

Lemma outcome_step_unrouted (home away key : option string)
    (ms : market_set) (o : outcome) :
  routed home away key o = None -> outcome_step home away key ms o = Ok ms.
Proof.
  unfold routed, outcome_step, h2h_outcome, spreads_outcome, totals_outcome.
  intros H.
  repeat (case_bool_decide; try discriminate);
    repeat (destruct (contains _ _); try discriminate);
    destruct ms as [? ? ?]; reflexivity.
Qed.

(** An entry routed to slot [s] stores what the comparator chose there,
    takes the entry's point when the stored price changed, and touches
    no other slot. *)
Lemma outcome_step_routed (home away key : option string)
    (ms : market_set) (o : outcome) (s : slot) (better : option Z) :
  routed home away key o = Some s ->
  _choose_better_moneyline (slot_price s ms) (o_price o) = Ok better ->
  exists ms',
    outcome_step home away key ms o = Ok ms' /\
    slot_price s ms' = better /\
    slot_point s ms' =
      (if bool_decide (better = slot_price s ms) then slot_point s ms
       else quote_point s o) /\
    (forall s', s' <> s ->
       slot_price s' ms' = slot_price s' ms /\
       slot_point s' ms' = slot_point s' ms).
Proof.
  unfold routed, outcome_step, h2h_outcome, spreads_outcome, totals_outcome.
  intros Hr Hb.
  destruct ms as [[? ?] [? ? ? ?] [? ? ? ?]].
  repeat (case_bool_decide; try discriminate);
    repeat (destruct (contains _ _); try discriminate);
    injection Hr as <-; simpl in *; rewrite Hb; simpl;
    repeat case_bool_decide; simpl;
    (eexists; split; [reflexivity|]; simpl;
     repeat split; try congruence;
     try (intros s' Hs'; destruct s'; simpl; congruence);
     try (destruct s'; simpl; congruence)).
Qed.

Lemma outcome_step_raises (home away key : option string)
    (ms : market_set) (o : outcome) (s : slot) (e : exn) :
  routed home away key o = Some s ->
  _choose_better_moneyline (slot_price s ms) (o_price o) = Raise e ->
  outcome_step home away key ms o = Raise e.
Proof.
  unfold routed, outcome_step, h2h_outcome, spreads_outcome, totals_outcome.
  intros Hr Hb.
  repeat (case_bool_decide; try discriminate);
    repeat (destruct (contains _ _); try discriminate);
    injection Hr as <-; simpl in *; rewrite Hb; reflexivity.
Qed.

Lemma choose_either (current new better : option Z) :
  _choose_better_moneyline current new = Ok better ->
  better = current \/ better = new.
Proof.
  unfold _choose_better_moneyline.
  destruct new as [n|], current as [c|]; simpl; try (intros [= <-]; auto).
  destruct (_american_payout_per_dollar n); simpl; [|discriminate].
  destruct (_american_payout_per_dollar c); simpl; [|discriminate].
  destruct (Qgt_bool _ _); intros [= <-]; auto.
Qed.

(** The effect of one entry on a record whose prices are not zero. *)
Lemma outcome_step_effect (home away key : option string)
    (ms : market_set) (o : outcome) :
  prices_nonzero ms -> nonzero (o_price o) ->
  exists ms',
    outcome_step home away key ms o = Ok ms' /\
    prices_nonzero ms' /\
    match routed home away key o with
    | None => ms' = ms
    | Some s =>
        chosen (slot_price s ms) (o_price o) (slot_price s ms') /\
        slot_point s ms' =
          (if bool_decide (slot_price s ms' = slot_price s ms)
           then slot_point s ms else quote_point s o) /\
        (forall s', s' <> s ->
           slot_price s' ms' = slot_price s' ms /\
           slot_point s' ms' = slot_point s' ms)
    end.
Proof.
  intros Hms Ho. destruct (routed home away key o) as [s|] eqn:Hr.
  - destruct (choose_chosen (slot_price s ms) (o_price o) (Hms s) Ho)
      as (better & Hb & Hch).
    destruct (outcome_step_routed _ _ _ _ _ _ _ Hr Hb)
      as (ms' & Hstep & Hprice & Hpoint & Hframe).
    exists ms'. split; [assumption|]. subst better. split; [|auto].
    intros s'. destruct (decide (s' = s)) as [->|Hne].
    + eapply chosen_nonzero; eauto.
    + destruct (Hframe s' Hne) as [-> _]. apply Hms.
  - exists ms. split; [now apply outcome_step_unrouted | auto].
Qed.

(** *** The folds *)

Lemma foldM_invariant {S A : Type} (f : S -> A -> result S)
    (I : S -> Prop) (l : list A) :
  (forall s x s', In x l -> I s -> f s x = Ok s' -> I s') ->
  forall s s', I s -> foldM f s l = Ok s' -> I s'.
Proof.
  induction l as [|x l IH]; intros Hf s s' Hs Hfold; simpl in Hfold.
  - now injection Hfold as <-.
  - destruct (f s x) as [s1|e] eqn:E; simpl in Hfold; [|discriminate].
    apply (IH (fun s0 y s0' Hy => Hf s0 y s0' (or_intror Hy)) s1 s');
      [|assumption].
    apply (Hf s x s1); simpl; auto.
Qed.

Lemma foldM_total {S A : Type} (f : S -> A -> result S)
    (I : S -> Prop) (l : list A) :
  (forall s x, In x l -> I s -> exists s', f s x = Ok s' /\ I s') ->
  forall s, I s -> exists s', foldM f s l = Ok s' /\ I s'.
Proof.
  induction l as [|x l IH]; intros Hf s Hs; simpl.
  - eauto.
  - destruct (Hf s x (or_introl eq_refl) Hs) as (s1 & E & Hs1).
    rewrite E. simpl.
    apply IH; [|assumption].
    intros s0 y Hy. apply Hf. now right.
Qed.

Lemma mapM_total {A B : Type} (f : A -> result B) (l : list A) :
  (forall x, In x l -> exists y, f x = Ok y) ->
  exists ys, mapM f l = Ok ys.
Proof.
  induction l as [|x l IH]; intros Hf; simpl.
  - eauto.
  - destruct (Hf x (or_introl eq_refl)) as (y & E). rewrite E. simpl.
    destruct IH as (ys & Eys).
    { intros z Hz. apply Hf. now right. }
    rewrite Eys. simpl. eauto.
Qed.

(** Every quoted price of the event that is there is not zero. *)
Definition quotes_nonzero (g : event) : Prop :=
  forall bk m o,
    In bk (ev_bookmakers g) -> In m (bk_markets bk) ->
    In o (m_outcomes m) -> nonzero (o_price o).

(** Slot [s] is empty, or holds the price and the point of one and the
    same outcome entry of the event, an entry compared against [s]. *)
Definition sourced (home away : option string) (g : event) (s : slot)
    (ms : market_set) : Prop :=
  (slot_price s ms = None /\ slot_point s ms = None) \/
  exists bk m o,
    In bk (ev_bookmakers g) /\ In m (bk_markets bk) /\
    In o (m_outcomes m) /\
    routed home away (m_key m) o = Some s /\
    slot_price s ms = o_price o /\
    slot_point s ms = quote_point s o.

Lemma outcome_step_sourced (home away : option string) (g : event)
    (bk : bookmaker) (m : market) (o : outcome) (ms ms' : market_set) :
  In bk (ev_bookmakers g) -> In m (bk_markets bk) -> In o (m_outcomes m) ->
  (forall s, sourced home away g s ms) ->
  outcome_step home away (m_key m) ms o = Ok ms' ->
  forall s, sourced home away g s ms'.
Proof.
  intros Hbk Hm Ho Hms Hstep s.
  destruct (routed home away (m_key m) o) as [s0|] eqn:Hr.
  - destruct (_choose_better_moneyline (slot_price s0 ms) (o_price o))
      as [better|e] eqn:Hb.
    + destruct (outcome_step_routed _ _ _ _ _ _ _ Hr Hb)
        as (ms1 & Hstep1 & Hprice & Hpoint & Hframe).
      rewrite Hstep in Hstep1. injection Hstep1 as <-.
      destruct (decide (s = s0)) as [->|Hne].
      * case_bool_decide as Hsame.
        -- specialize (Hms s0). unfold sourced in *.
           rewrite Hprice, Hpoint, Hsame. exact Hms.
        -- right. exists bk, m, o.
           destruct (choose_either _ _ _ Hb) as [?|Hnew]; [contradiction|].
           rewrite Hprice, Hpoint, Hnew. auto 10.
      * destruct (Hframe s Hne) as [Hp Hq].
        specialize (Hms s). unfold sourced in *.
        rewrite Hp, Hq. exact Hms.
    + rewrite (outcome_step_raises _ _ _ _ _ _ _ Hr Hb) in Hstep.
      discriminate.
  - rewrite outcome_step_unrouted in Hstep by assumption.
    injection Hstep as <-. apply Hms.
Qed.

Lemma aggregate_total (g : event) :
  quotes_nonzero g -> exists r, aggregate g = Ok r.
Proof.
  intros Hq. unfold aggregate.
  set (home := resolve_home g). set (away := resolve_away g).
  destruct (foldM_total (bookmaker_step home away) prices_nonzero
              (ev_bookmakers g)) with (s := empty_markets)
    as (ms & Hfold & _).
  - intros ms bk Hbk Hms. unfold bookmaker_step.
    apply foldM_total; [|assumption].
    intros ms1 m Hm Hms1. unfold market_step.
    apply foldM_total; [|assumption].
    intros ms2 o Ho Hms2.
    destruct (outcome_step_effect home away (m_key m) ms2 o Hms2
                (Hq bk m o Hbk Hm Ho)) as (ms3 & Hstep & Hnz & _).
    eauto.
  - intros s. destruct s; exact I.
  - rewrite Hfold. simpl. eauto.
Qed.

Lemma aggregate_sourced (g : event) (r : game) :
  aggregate g = Ok r ->
  forall s, sourced (home_team r) (away_team r) g s (markets r).
Proof.
  unfold aggregate.
  set (home := resolve_home g). set (away := resolve_away g).
  destruct (foldM (bookmaker_step home away) empty_markets (ev_bookmakers g))
    as [ms|e] eqn:Hfold; simpl; [|discriminate].
  intros [= <-]. simpl.
  revert Hfold.
  apply (foldM_invariant (bookmaker_step home away)
           (fun ms => forall s, sourced home away g s ms)).
  - intros ms0 bk ms1 Hbk Hms0. unfold bookmaker_step.
    apply (foldM_invariant (market_step home away)
             (fun ms => forall s, sourced home away g s ms)); [|assumption].
    intros ms2 m ms3 Hm Hms2. unfold market_step.
    apply (foldM_invariant (outcome_step home away (m_key m))
             (fun ms => forall s, sourced home away g s ms)); [|assumption].
    intros ms4 o ms5 Ho Hms4 Hstep.
    now apply (outcome_step_sourced home away g bk m o ms4 ms5).
  - intros s. left. destruct s; split; reflexivity.
Qed.

(** C4.  Best-price aggregation is idempotent and never splits a price
    from its point.  On a record and a quote whose prices are not zero, one
    outcome entry always goes through, and feeding the same entry again
    changes nothing; an entry that does not pay strictly more than the
    stored price leaves the whole record as it was; an entry that pays
    strictly more (or finds the slot empty) replaces the stored price and,
    for spreads and totals, the stored point with its own.  Whatever a
    finished record holds in a slot is the price and the point of one and
    the same outcome entry of the event. *)
Theorem best_price_aggregation :
  (forall (home away key : option string) (ms : market_set) (o : outcome),
     prices_nonzero ms -> nonzero (o_price o) ->
     exists ms',
       outcome_step home away key ms o = Ok ms' /\
       outcome_step home away key ms' o = Ok ms' /\
       forall s n, routed home away key o = Some s -> o_price o = Some n ->
         (forall c, slot_price s ms = Some c ->
            (~ pays_more n c -> ms' = ms) /\
            (pays_more n c ->
               slot_price s ms' = Some n /\
               slot_point s ms' = quote_point s o)) /\
         (slot_price s ms = None ->
            slot_price s ms' = Some n /\
            slot_point s ms' = quote_point s o)) /\
  (forall g : event, quotes_nonzero g -> exists r, aggregate g = Ok r) /\
  (forall (g : event) (r : game),
     aggregate g = Ok r ->
     forall s, sourced (home_team r) (away_team r) g s (markets r)).
Proof.
  split; [|split]; [|exact aggregate_total|exact aggregate_sourced].
  intros home away key ms o Hms Ho.
  destruct (outcome_step_effect home away key ms o Hms Ho)
    as (ms' & Hstep & Hnz & Heff).
  exists ms'. split; [assumption|]. split.
  - (* the same entry again *)
    destruct (outcome_step_effect home away key ms' o Hnz Ho)
      as (ms'' & Hstep' & _ & Heff').
    rewrite Hstep'. f_equal.
    destruct (routed home away key o) as [s|]; [|assumption].
    destruct Heff as (Hch & _ & _).
    destruct Heff' as (Hch' & Hpoint' & Hframe').
    assert (Hsame : slot_price s ms'' = slot_price s ms').
    { eapply chosen_functional; [exact Hch'|]. eapply chosen_again; eauto. }
    apply market_set_ext. intros s'.
    destruct (decide (s' = s)) as [->|Hne]; [|now apply Hframe'].
    split; [assumption|]. rewrite Hpoint'.
    now rewrite bool_decide_eq_true_2.
  - intros s n Hr Hn. rewrite Hr in Heff.
    destruct Heff as (Hch & Hpoint & Hframe). split.
    + intros c Hc. split; intros Hpay.
      * assert (Hkept : slot_price s ms' = slot_price s ms).
        { eapply chosen_functional; [exact Hch|].
          now apply (chosen_kept _ _ c n). }
        apply market_set_ext. intros s'.
        destruct (decide (s' = s)) as [->|Hne]; [|now apply Hframe].
        split; [assumption|]. rewrite Hpoint.
        now rewrite bool_decide_eq_true_2.
      * assert (Hnew : slot_price s ms' = o_price o).
        { eapply chosen_functional; [exact Hch|].
          now apply (chosen_better _ _ c n). }
        rewrite Hpoint, Hnew, Hn. split; [reflexivity|].
        rewrite bool_decide_eq_false_2; [reflexivity|].
        rewrite Hc. intros [= ->]. unfold pays_more in Hpay. lra.
    + intros Hnone.
      assert (Hnew : slot_price s ms' = o_price o).
      { eapply chosen_functional; [exact Hch|].
        now apply (chosen_first _ _ n). }
      rewrite Hpoint, Hnew, Hn. split; [reflexivity|].
      rewrite bool_decide_eq_false_2; [reflexivity|].
      rewrite Hnone. discriminate.
Qed.

Lemma best_price_aggregation_witness :
  let home := Some "Boston Celtics"%string in
  let away := Some "Memphis Grizzlies"%string in
  let ms := {| h2h := h2h empty_markets;
               spreads := {| spreads_home_point := Some (-3.5);
                             spreads_home_price := Some (-110)%Z;
                             spreads_away_point := None;
                             spreads_away_price := None |};
               totals := totals empty_markets |} in
  let o := {| o_name := home; o_price := Some (-105)%Z;
              o_point := Some (-4) |} in
  exists ms',
    outcome_step home away (Some "spreads"%string) ms o = Ok ms' /\
    outcome_step home away (Some "spreads"%string) ms' o = Ok ms' /\
    slot_price SpreadsHome ms' = Some (-105)%Z /\
    slot_point SpreadsHome ms' = Some (-4).
Proof.
  intros home away ms o.
  assert (Hms : prices_nonzero ms).
  { intros s. destruct s; simpl; try exact I. discriminate. }
  assert (Ho : nonzero (o_price o)) by (simpl; discriminate).
  destruct (proj1 best_price_aggregation home away (Some "spreads"%string)
              ms o Hms Ho) as (ms' & Hstep & Hagain & Hcases).
  exists ms'. split; [assumption|]. split; [assumption|].
  destruct (Hcases SpreadsHome (-105)%Z eq_refl eq_refl) as (Hstored & _).
  destruct (Hstored (-110)%Z eq_refl) as (_ & Hbetter).
  apply Hbetter. reflexivity.
Defined.

End Aggregation.

(** ** Lists: monadic map, stable descending sort *)

Section Lists.

Import odds_tool chains.

Lemma mapM_In {A B : Type} (f : A -> result B) (l : list A) (ys : list B) :
  mapM f l = Ok ys ->
  forall y, In y ys <-> exists x, In x l /\ f x = Ok y.
Proof.
  revert ys. induction l as [|x l IH]; intros ys H y; simpl in H.
  - injection H as <-. simpl. split; [tauto | intros (x & [] & _)].
  - destruct (f x) as [y0|e] eqn:E; simpl in H; [|discriminate].
    destruct (mapM f l) as [ys0|e] eqn:E'; simpl in H; [|discriminate].
    injection H as <-. simpl. rewrite (IH ys0 eq_refl y). split.
    + intros [<-|(x' & Hin & Hx')]; eauto.
    + intros (x' & [<-|Hin] & Hx'); [left; congruence | eauto].
Qed.

Lemma mapM_map {A B K : Type} (f : A -> result B) (h : B -> K) (k : A -> K)
    (l : list A) (ys : list B) :
  (forall x y, f x = Ok y -> h y = k x) ->
  mapM f l = Ok ys -> List.map h ys = List.map k l.
Proof.
  intros Hf. revert ys. induction l as [|x l IH]; intros ys H; simpl in H.
  - now injection H as <-.
  - destruct (f x) as [y0|e] eqn:E; simpl in H; [|discriminate].
    destruct (mapM f l) as [ys0|e] eqn:E'; simpl in H; [|discriminate].
    injection H as <-. simpl. f_equal; auto.
Qed.

Context {A : Type} (key : A -> Q).

Lemma insert_desc_perm (x : A) (l : list A) :
  Permutation (insert_desc key x l) (x :: l).
Proof.
  induction l as [|y l IH]; simpl; [reflexivity|].
  destruct (Qgt_bool (key y) (key x)); [|reflexivity].
  rewrite IH. apply perm_swap.
Qed.

Lemma sort_desc_perm (l : list A) : Permutation (sort_desc key l) l.
Proof.
  induction l as [|x l IH]; simpl; [reflexivity|].
  unfold sort_desc in *. simpl. rewrite insert_desc_perm. now constructor.
Qed.

(** Descending by key: every element is at least as large as all behind
    it. *)
Definition descending (l : list A) : Prop :=
  StronglySorted (fun a b => key b <= key a) l.

Lemma insert_desc_sorted (x : A) (l : list A) :
  descending l -> descending (insert_desc key x l).
Proof.
  unfold descending. induction l as [|y l IH]; intros Hs; simpl.
  - constructor; constructor.
  - inversion Hs as [|? ? Hs' Hall]; subst.
    destruct (Qgt_bool (key y) (key x)) eqn:E.
    + apply Qgt_bool_iff in E. constructor; [auto|].
      rewrite insert_desc_perm. constructor; [lra | assumption].
    + apply Qgt_bool_false in E. constructor; [assumption|].
      constructor; [assumption|].
      eapply Forall_impl; [exact Hall|]. simpl. intros z Hz. lra.
Qed.

Lemma sort_desc_sorted (l : list A) : descending (sort_desc key l).
Proof.
  induction l as [|x l IH]; simpl; [constructor|].
  now apply insert_desc_sorted.
Qed.

(** The elements of one key, in the order they have in the list. *)
Definition of_key (k : Q) (l : list A) : list A :=
  List.filter (fun x => Qeq_bool (key x) k) l.

Lemma insert_desc_of_key (k : Q) (x : A) (l : list A) :
  of_key k (insert_desc key x l) = of_key k (x :: l).
Proof.
  unfold of_key. induction l as [|y l IH]; simpl; [reflexivity|].
  destruct (Qgt_bool (key y) (key x)) eqn:E; [|reflexivity].
  apply Qgt_bool_iff in E. simpl. rewrite IH. simpl.
  destruct (Qeq_bool (key x) k) eqn:Ex; [|reflexivity].
  apply Qeq_bool_iff in Ex.
  assert (Ey : Qeq_bool (key y) k = false) by (apply Qeq_bool_false; lra).
  now rewrite Ey.
Qed.

(** Stability: elements of equal key keep their order. *)
Lemma sort_desc_stable (k : Q) (l : list A) :
  of_key k (sort_desc key l) = of_key k l.
Proof.
  induction l as [|x l IH]; [reflexivity|].
  change (sort_desc key (x :: l)) with (insert_desc key x (sort_desc key l)).
  rewrite insert_desc_of_key. unfold of_key in *. simpl. now rewrite IH.
Qed.

End Lists.

(** ** Pipeline: games without both team names *)

Section Pipeline.

Import odds_tool chains.

Definition names (g : game) : option string * option string :=
  (home_team g, away_team g).

Definition both_named (g : game) : Prop :=
  truthy_str (home_team g) = true /\ truthy_str (away_team g) = true.

Lemma aggregate_names (e : event) (r : game) :
  aggregate e = Ok r ->
  home_team r = resolve_home e /\ away_team r = resolve_away e.
Proof.
  unfold aggregate.
  destruct (foldM _ _ _); simpl; [|discriminate].
  intros [= <-]. simpl. auto.
Qed.

Lemma lookup_features_spec (C : config) (games : list game) :
  forall w out log w',
    lookup_features C w games = (out, log, w') ->
    List.map g out = games /\
    log = flat_map (fun g => [home_team g; away_team g]) games.
Proof.
  induction games as [|g0 rest IH]; intros w out log w' H; simpl in H.
  - injection H as <- <- <-. auto.
  - destruct (stats_tool.rolling_team_features (stats C) w (home_team g0) 10)
      as [hf w1].
    destruct (stats_tool.rolling_team_features (stats C) w1 (away_team g0) 10)
      as [af w2].
    destruct (lookup_features C w2 rest) as [[out0 log0] w3] eqn:E.
    injection H as <- <- <-.
    destruct (IH _ _ _ _ E) as [Hout Hlog].
    simpl. split; congruence.
Qed.

Lemma add_team_features_spec (C : config) (w : world) (games : list game)
    (out : list game_with_feats) (log : list (option string)) (w' : world) :
  add_team_features C w games = (out, log, w') ->
  List.map g out = games /\
  log = (if SKIP_STATS C then []
         else flat_map (fun g => [home_team g; away_team g]) games).
Proof.
  unfold add_team_features. destruct (SKIP_STATS C).
  - intros [= <- <- <-]. split; [|reflexivity].
    rewrite List.map_map. simpl. apply List.map_id.
  - apply lookup_features_spec.
Qed.

Lemma score_game_names (C : config) (gf : game_with_feats) (s : scored) :
  score_game C gf = Ok s ->
  (s_home s, s_away s) = names (g gf).
Proof.
  unfold score_game.
  repeat match goal with
  | |- context [when_priced ?f ?p ?ml] =>
      destruct (when_priced f p ml); simpl; [|discriminate]
  end.
  intros [= <-]. reflexivity.
Qed.

Lemma rank_recs_perm (l : list scored) :
  Permutation (List.map rec (rank_recs l)) l.
Proof.
  unfold rank_recs.
  rewrite (sort_desc_perm sort_key (List.map pick l)).
  rewrite List.map_map.
  replace (List.map (fun x => rec (pick x)) l) with l; [reflexivity|].
  symmetry. erewrite List.map_ext; [apply List.map_id|].
  intros a. unfold pick.
  destruct (negb _ || negb _); reflexivity.
Qed.

(** C9.  A game missing its home or its away name (after the away name
    was inferred where it could be) does not leave [fetch_odds]: what
    leaves it are exactly the aggregated records of the events with both
    names.  The stages behind it work on those games only: the feature
    lookups are the home and away names of the kept games, in order (none
    when statistics are skipped), one game is scored per kept game, and the
    ranking holds exactly the scored games. *)
Theorem nameless_games_dropped :
  (forall (data : list event) (games : list game),
     fetch_odds (Ok data) = Ok games ->
     forall r, In r games <->
       exists e, In e data /\ aggregate e = Ok r /\
                 truthy_str (resolve_home e) = true /\
                 truthy_str (resolve_away e) = true) /\
  (forall (C : config) (response : result (list event)) (w w' : world)
          (recs : list recommendation) (log : list (option string)),
     NBA_CHAIN C response w = Ok (recs, log, w') ->
     exists games with_feats scored,
       fetch_odds response = Ok games /\
       Forall both_named games /\
       List.map g with_feats = games /\
       log = (if SKIP_STATS C then []
              else flat_map (fun g => [home_team g; away_team g]) games) /\
       score_vs_market C with_feats = Ok scored /\
       List.map (fun s => (s_home s, s_away s)) scored = List.map names games /\
       Permutation (List.map rec recs) scored).
Proof.
  split.
  - intros data games H r. unfold fetch_odds, get_nba_odds in H.
    simpl in H.
    destruct (mapM aggregate data) as [all|e] eqn:E; simpl in H; [|discriminate].
    injection H as <-.
    rewrite List.filter_In, (mapM_In aggregate data all E r).
    rewrite andb_true_iff. split.
    + intros ((e & Hin & Hagg) & Hh & Ha).
      destruct (aggregate_names e r Hagg) as [Eh Ea].
      exists e. rewrite <- Eh, <- Ea. auto.
    + intros (e & Hin & Hagg & Hh & Ha).
      destruct (aggregate_names e r Hagg) as [Eh Ea].
      rewrite Eh, Ea. eauto.
  - intros C response w w' recs log H. unfold NBA_CHAIN in H.
    destruct (fetch_odds response) as [games|e] eqn:Ef; simpl in H;
      [|discriminate].
    destruct (add_team_features C w games) as [[with_feats log0] w0] eqn:Ea.
    destruct (score_vs_market C with_feats) as [scored|e] eqn:Es; simpl in H;
      [|discriminate].
    injection H as <- <- <-.
    destruct (add_team_features_spec _ _ _ _ _ _ Ea) as [Hg Hlog].
    exists games, with_feats, scored.
    repeat split; try assumption.
    + unfold fetch_odds in Ef.
      destruct (get_nba_odds response) as [all|e]; simpl in Ef; [|discriminate].
      injection Ef as <-. apply List.Forall_forall. intros x Hx.
      apply List.filter_In in Hx. destruct Hx as [_ Hx].
      apply andb_true_iff in Hx. exact Hx.
    + rewrite <- Hg, List.map_map.
      apply (mapM_map (score_game C) _ (fun gf => names (g gf))
               with_feats scored); [|exact Es].
      apply score_game_names.
    + apply rank_recs_perm.
Qed.

(** Two events: one with both names, one with a home name only. *)
Definition named_event : event := {|
  ev_id := Some "e1"%string; ev_commence_time := None;
  ev_home_team := Some "Boston Celtics"%string; ev_homeTeam := None;
  ev_away_team := None; ev_awayTeam := None;
  ev_teams := Some ["Memphis Grizzlies"%string; "Boston Celtics"%string];
  ev_bookmakers := [];
|}.

Definition nameless_event : event := {|
  ev_id := Some "e2"%string; ev_commence_time := None;
  ev_home_team := Some "Denver Nuggets"%string; ev_homeTeam := None;
  ev_away_team := None; ev_awayTeam := None;
  ev_teams := None;
  ev_bookmakers := [];
|}.

Definition named_game : game := {|
  id := Some "e1"%string; commence_time := None;
  home_team := Some "Boston Celtics"%string;
  away_team := Some "Memphis Grizzlies"%string;
  markets := empty_markets;
|}.

Lemma nameless_games_dropped_witness :
  In named_game [named_game] <->
  exists e, In e [named_event; nameless_event] /\
            aggregate e = Ok named_game /\
            truthy_str (resolve_home e) = true /\
            truthy_str (resolve_away e) = true.
Proof.
  apply (proj1 nameless_games_dropped [named_event; nameless_event]
           [named_game]).
  reflexivity.
Defined.

End Pipeline.

(** ** Ranker *)

Section Ranker.

Import odds_tool chains.




(** With no expected value on either side, [pick] goes by edge. *)
Lemma pick_by_edge (s : scored) :
  ev_home s = None -> ev_away s = None ->
  metric_name (pick s) = "edge"%string /\
  (best_metric (pick s) = edge_home s \/ best_metric (pick s) = edge_away s).
Proof.
  intros Hh Ha. unfold pick. rewrite Hh, Ha. simpl.
  split; [reflexivity|].
  destruct (Qge_bool _ _); simpl; auto.
Qed.

(** The output of [rank_recs] is the picks of its input, descending by
    sort key, equal keys in input order. *)
Lemma rank_recs_sorted (l : list scored) :
  Permutation (rank_recs l) (List.map pick l) /\
  descending sort_key (rank_recs l) /\
  forall k, of_key sort_key k (rank_recs l)
            = of_key sort_key k (List.map pick l).
Proof.
  unfold rank_recs. split; [|split].
  - apply sort_desc_perm.
  - apply sort_desc_sorted.
  - intros k. apply sort_desc_stable.
Qed.

(** The fallback model of tools/model.py (a constant 0.5), no injuries
    file, statistics skipped. *)
Definition fallback_config : config := {|
  SKIP_STATS := true;
  MODEL := fun _ => 0.5;
  TEAM_NAME_TO_ID := ∅;
  injuries_json := None;
  to_eastern := fun t => t;
  stats := {| stats_tool.teams := ∅;
              stats_tool.CACHE_HOURS := 6;
              stats_tool.service := fun _ _ => stats_tool.Failure 0;
              stats_tool.sort_by_date := fun df => df;
              stats_tool.window_features := fun _ => ∅ |};
|}.

(** A game priced +100 on the home side and -120 on the away side. *)
Definition even_money_game : game_with_feats := {|
  g := {| id := Some "e1"%string;
          commence_time := None;
          home_team := Some "Boston Celtics"%string;
          away_team := Some "Memphis Grizzlies"%string;
          markets := {| h2h := {| h2h_home_price := Some 100%Z;
                                  h2h_away_price := Some (-120)%Z |};
                        spreads := spreads empty_markets;
                        totals := totals empty_markets |} |};
  home_feats := ∅;
  away_feats := ∅;
|}.

(** A game priced +100 on the away side, with no home price. *)
Definition away_only_game : game_with_feats := {|
  g := {| id := Some "e2"%string;
          commence_time := None;
          home_team := Some "Denver Nuggets"%string;
          away_team := Some "Utah Jazz"%string;
          markets := {| h2h := {| h2h_home_price := None;
                                  h2h_away_price := Some 100%Z |};
                        spreads := spreads empty_markets;
                        totals := totals empty_markets |} |};
  home_feats := ∅;
  away_feats := ∅;
|}.

(** C1, where the code departs from it.  Under the fallback model a price
    of +100 scores an expected value of exactly 0, and [x or -9] reads a
    zero as absent.  (1) Home +100, away -120: both expected values are
    defined and the home one is the higher, yet the ranker picks the away
    side and reports its negative expected value.  (2) No home price, away
    +100: the away side has a defined expected value, yet the ranker picks
    the home side and reports an absent metric under the name "EV". *)
Theorem rank_recs_zero_ev_reads_as_absent :
  (exists (s : scored) (h a : Q) (r : recommendation),
     score_game fallback_config even_money_game = Ok s /\
     ev_home s = Some h /\ ev_away s = Some a /\
     h == 0 /\ a == -0.0833 /\ a < h /\
     rank_recs [s] = [r] /\
     metric_name r = "EV"%string /\
     best_side r = "away"%string /\
     best_metric r = Some a) /\
  (exists (s : scored) (a : Q) (r : recommendation),
     score_game fallback_config away_only_game = Ok s /\
     ev_home s = None /\ ev_away s = Some a /\ a == 0 /\
     rank_recs [s] = [r] /\
     metric_name r = "EV"%string /\
     best_side r = "home"%string /\
     best_metric r = None).
Proof.
  split.
  - eexists. exists (round4 0), (round4 (0.5 * (100 / 120) - (1 - 0.5))).
    eexists.
    split; [vm_compute; reflexivity|].
    repeat split.
  - eexists. exists (round4 0). eexists.
    split; [vm_compute; reflexivity|].
    repeat split.
Qed.

End Ranker.

(** ** TeamFeatureCache: the tiered read path *)

Section FeatureCache.

Import cache stats_tool.

Variable E : env.
Variable team_id : Z.

(** Age of a file in seconds, as [read_df_cache] computes it. *)
Definition age_sec (w : world) (f : file) : Q := clock w - mtime f.

Lemma read_df_cache_within (w : world) (f : file) (hours : Q) :
  disk w !! team_id = Some f ->
  age_sec w f <= hours * 3600 ->
  read_df_cache w team_id hours = csv f.
Proof.
  intros Hf Hage. unfold read_df_cache. rewrite Hf.
  apply Qgt_bool_false in Hage. unfold age_sec in Hage. now rewrite Hage.
Qed.

Lemma read_df_cache_beyond (w : world) (f : file) (hours : Q) :
  disk w !! team_id = Some f ->
  hours * 3600 < age_sec w f ->
  read_df_cache w team_id hours = None.
Proof.
  intros Hf Hage. unfold read_df_cache. rewrite Hf.
  apply Qgt_bool_iff in Hage. unfold age_sec in Hage. now rewrite Hage.
Qed.

Lemma read_df_cache_absent (w : world) (hours : Q) :
  disk w !! team_id = None -> read_df_cache w team_id hours = None.
Proof. intros Hf. unfold read_df_cache. now rewrite Hf. Qed.

(** Tier 1: a readable file no older than the threshold is returned as it
    is; the world is untouched, so no live call is made and nothing is
    written. *)
Lemma fresh_cache_served (w : world) (f : file) (df : DataFrame) :
  disk w !! team_id = Some f -> csv f = Some df ->
  age_sec w f <= CACHE_HOURS E * 3600 ->
  cached_or_fetched E w team_id = (df, w).
Proof.
  intros Hf Hcsv Hage. unfold cached_or_fetched.
  rewrite (read_df_cache_within w f _ Hf Hage), Hcsv. reflexivity.
Qed.

(** Tier 2 is entered exactly when tier 1 finds nothing, and then makes at
    least one live call. *)
Lemma first_attempt_calls (w : world) :
  exists w', snd (fetch_loop E team_id 2 0 w) = w' /\
             (live_calls w < live_calls w')%nat.
Proof.
  eexists. split; [reflexivity|].
  simpl. unfold call_service, _nba_sleep, sleep. simpl.
  destruct (service E team_id (live_calls w)) as [l df|l]; simpl.
  - destruct df as [|r df]; simpl.
    + destruct (service E team_id (S (live_calls w))) as [l' df'|l']; simpl.
      * destruct df'; simpl; [lia|].
        unfold write_df_cache. simpl. destruct (writable w); simpl; lia.
      * lia.
    + unfold write_df_cache. simpl. destruct (writable w); simpl; lia.
  - destruct (service E team_id (S (live_calls w))) as [l' df'|l']; simpl.
    + destruct df'; simpl; [lia|].
      unfold write_df_cache. simpl. destruct (writable w); simpl; lia.
    + lia.
Qed.

Lemma stale_cache_fetches (w : world) :
  read_df_cache w team_id (CACHE_HOURS E) = None ->
  cached_or_fetched E w team_id = _fetch_team_gamelog E w team_id 2 /\
  (live_calls w < live_calls (snd (cached_or_fetched E w team_id)))%nat.
Proof.
  intros Hnone. unfold cached_or_fetched. rewrite Hnone.
  split; [reflexivity|].
  destruct (first_attempt_calls w) as (w' & Hw' & Hlt).
  unfold _fetch_team_gamelog.
  destruct (fetch_loop E team_id 2 0 w) as [[df|] w1]; simpl in *;
    rewrite <- Hw' in Hlt.
  - assumption.
  - destruct (read_df_cache w1 team_id 9999); simpl; assumption.
Qed.

(** Tier 2, success on the first attempt: the frame is written (where the
    directory can be written) and returned. *)
Lemma first_attempt_success (w : world) (l : Q) (df : DataFrame) :
  service E team_id (live_calls w) = Frame l df -> empty df = false ->
  exists w',
    _fetch_team_gamelog E w team_id 2 = (df, w') /\
    live_calls w' = S (live_calls w) /\
    (writable w = true ->
     disk w' !! team_id = Some {| mtime := clock w'; csv := Some df |}).
Proof.
  intros Hs Hne. unfold _fetch_team_gamelog. simpl.
  unfold call_service. simpl. rewrite Hs, Hne. simpl.
  eexists. split; [reflexivity|].
  unfold write_df_cache. simpl. destruct (writable w); simpl.
  - split; [reflexivity|]. intros _. now rewrite lookup_insert_eq.
  - split; [reflexivity|]. discriminate.
Qed.


(** Every live call fails (raises), after a latency that is not negative. *)
Definition service_down : Prop :=
  forall n, exists l, service E team_id n = Failure l /\ 0 <= l.

Lemma fetch_loop_down (remaining : nat) :
  service_down ->
  forall i w, exists w',
    fetch_loop E team_id remaining i w = (None, w') /\
    disk w' = disk w /\ clock w <= clock w' /\
    live_calls w' = (live_calls w + remaining)%nat.
Proof.
  intros Hdown. induction remaining as [|k IH]; intros i w; simpl.
  - exists w. repeat split; [lra | lia].
  - unfold call_service. simpl.
    destruct (Hdown (live_calls w)) as (l & Hl & Hpos). rewrite Hl.
    match goal with
    | |- context [fetch_loop E team_id k (S i) ?w0] =>
        destruct (IH (S i) w0) as (w' & Hloop & Hdisk & Hclock & Hcalls)
    end.
    exists w'. simpl in *. repeat split; try assumption.
    + assert (0 <= inject_Z (Z.of_nat i)).
      { unfold Qle. simpl. lia. }
      lra.
    + lia.
Qed.

(** Tier 3: with the service down, a readable file of at most 9999 hours
    (at the time of the second read) is returned. *)
Lemma stale_cache_fallback (w : world) (f : file) (df : DataFrame) :
  service_down ->
  disk w !! team_id = Some f -> csv f = Some df ->
  exists w',
    fetch_loop E team_id 2 0 w = (None, w') /\
    (age_sec w' f <= 9999 * 3600 ->
     _fetch_team_gamelog E w team_id 2 = (df, w')).
Proof.
  intros Hdown Hf Hcsv.
  destruct (fetch_loop_down 2 Hdown 0%nat w) as (w' & Hloop & Hdisk & _ & _).
  exists w'. split; [assumption|]. intros Hage.
  unfold _fetch_team_gamelog. rewrite Hloop.
  rewrite (read_df_cache_within w' f 9999), Hcsv; congruence.
Qed.

(** Tier 4: with the service down and no file, the frame is empty. *)
Lemma no_cache_empty (w : world) :
  service_down -> disk w !! team_id = None ->
  fst (cached_or_fetched E w team_id) = [].
Proof.
  intros Hdown Hf. unfold cached_or_fetched.
  rewrite read_df_cache_absent by assumption.
  destruct (fetch_loop_down 2 Hdown 0%nat w) as (w' & Hloop & Hdisk & _ & _).
  unfold _fetch_team_gamelog. rewrite Hloop.
  rewrite read_df_cache_absent by congruence. reflexivity.
Qed.

(** The 5 hour / 7 hour scenario under a 6 hour threshold. *)
Lemma five_and_seven_hours (w : world) (f : file) (df : DataFrame) :
  CACHE_HOURS E == 6 ->
  disk w !! team_id = Some f -> csv f = Some df ->
  (age_sec w f == 5 * 3600 -> cached_or_fetched E w team_id = (df, w)) /\
  (age_sec w f == 7 * 3600 ->
   (live_calls w < live_calls (snd (cached_or_fetched E w team_id)))%nat).
Proof.
  intros Hh Hf Hcsv. split; intros Hage.
  - apply (fresh_cache_served w f df); try assumption.
    rewrite Hage, Hh. lra.
  - apply stale_cache_fetches.
    apply (read_df_cache_beyond w f); [assumption|].
    rewrite Hage, Hh. lra.
Qed.

(** C2, where the code departs from it.  With every live attempt failing,
    a persisted dataset older than 9999 hours is not used: the lookup ends
    with an empty frame although the file is there and readable. *)
Theorem stale_cache_older_than_9999_hours_unused
    (w : world) (f : file) (df : DataFrame) :
  service_down ->
  disk w !! team_id = Some f -> csv f = Some df ->
  CACHE_HOURS E * 3600 < age_sec w f ->
  9999 * 3600 < age_sec w f ->
  fst (cached_or_fetched E w team_id) = [] /\
  live_calls (snd (cached_or_fetched E w team_id)) = (live_calls w + 2)%nat.
Proof.
  intros Hdown Hf Hcsv Hstale Hold. unfold cached_or_fetched.
  rewrite (read_df_cache_beyond w f _ Hf Hstale).
  destruct (fetch_loop_down 2 Hdown 0%nat w)
    as (w' & Hloop & Hdisk & Hclock & Hcalls).
  unfold _fetch_team_gamelog. rewrite Hloop.
  rewrite (read_df_cache_beyond w' f 9999).
  - simpl. auto.
  - congruence.
  - unfold age_sec in *. lra.
Qed.

End FeatureCache.

(** The stats service down, and a cache file of 10000 hours. *)
Definition service_down_env : stats_tool.env := {|
  stats_tool.teams := {[ "Boston Celtics"%string := 1610612738%Z ]};
  stats_tool.CACHE_HOURS := 6;
  stats_tool.service := fun _ _ => stats_tool.Failure 0;
  stats_tool.sort_by_date := fun df => df;
  stats_tool.window_features := fun _ => {[ "pts_avg"%string := 110 ]};
|}.

Definition old_game_log : DataFrame := [ {[ "PTS"%string := Num 110 ]} ].

Definition old_cache_world : world := {|
  clock := 10000 * 3600;
  disk := {[ 1610612738%Z := {| mtime := 0; csv := Some old_game_log |} ]};
  writable := true;
  live_calls := 0;
|}.

Lemma stale_cache_older_than_9999_hours_unused_witness :
  fst (stats_tool.cached_or_fetched service_down_env old_cache_world
         1610612738) = [] /\
  live_calls (snd (stats_tool.cached_or_fetched service_down_env
                     old_cache_world 1610612738)) = 2%nat.
Proof.
  apply (stale_cache_older_than_9999_hours_unused service_down_env
           1610612738 old_cache_world
           {| mtime := 0; csv := Some old_game_log |} old_game_log).
  - intros n. exists 0. split; [reflexivity | discriminate].
  - reflexivity.
  - reflexivity.
  - reflexivity.
  - reflexivity.
Defined.


(* ================================================================== *)
(** * Part III: further properties of the code *)
(* ================================================================== *)

(** ** Rounding *)

Section Rounding.

Lemma round_half_even_floor (x : Q) :
  round_half_even x = Qfloor x \/ round_half_even x = (Qfloor x + 1)%Z.
Proof.
  unfold round_half_even.
  destruct (Qlt_bool _ _); [auto|].
  destruct (Qlt_bool _ _); [auto|].
  destruct (Z.even _); auto.
Qed.

(** The integer chosen is within one half of the number. *)
Lemma round_half_even_near (x : Q) :
  inject_Z (round_half_even x) - (1 # 2) <= x /\
  x <= inject_Z (round_half_even x) + (1 # 2).
Proof.
  pose proof (Qfloor_le x) as Hlo. pose proof (Qlt_floor x) as Hhi.
  rewrite inject_Z_plus in Hhi. change (inject_Z 1) with 1 in Hhi.
  unfold round_half_even.
  qcases; try (split; lra);
    destruct (Z.even (Qfloor x));
    rewrite ?inject_Z_plus; change (inject_Z 1) with 1; split; lra.
Qed.

Lemma round_half_even_comp (x y : Q) :
  x == y -> round_half_even x = round_half_even y.
Proof.
  intros H. unfold round_half_even, Qlt_bool.
  rewrite (Qfloor_comp x y H). set (n := inject_Z (Qfloor y)).
  assert (E1 : Qle_bool (1 # 2) (x - n) = Qle_bool (1 # 2) (y - n))
    by now rewrite H.
  assert (E2 : Qle_bool (x - n) (1 # 2) = Qle_bool (y - n) (1 # 2))
    by now rewrite H.
  now rewrite E1, E2.
Qed.

Lemma round_half_even_Z (n : Z) : round_half_even (inject_Z n) = n.
Proof.
  unfold round_half_even. rewrite Qfloor_Z.
  assert (E : Qlt_bool (inject_Z n - inject_Z n) (1 # 2) = true).
  { apply Qlt_bool_iff. lra. }
  now rewrite E.
Qed.

Lemma round_half_even_mono (x y : Q) :
  x <= y -> (round_half_even x <= round_half_even y)%Z.
Proof.
  intros Hxy. pose proof (Qfloor_resp_le x y Hxy) as Hfl.
  destruct (Z.eq_dec (Qfloor x) (Qfloor y)) as [Heq|Hne].
  - unfold round_half_even. rewrite <- Heq.
    qcases; try lia; try lra; destruct (Z.even (Qfloor x)); lia.
  - destruct (round_half_even_floor x) as [-> | ->];
      destruct (round_half_even_floor y) as [-> | ->]; lia.
Qed.

Lemma inject_Z_le (a b : Z) : (a <= b)%Z -> inject_Z a <= inject_Z b.
Proof. intros H. unfold Qle. simpl. lia. Qed.

Lemma round4_mono (x y : Q) : x <= y -> round4 x <= round4 y.
Proof.
  intros Hxy. unfold round4.
  assert (H : (round_half_even (x * 10000) <= round_half_even (y * 10000))%Z).
  { apply round_half_even_mono. lra. }
  apply inject_Z_le in H.
  apply Qmult_le_compat_r with (z := / 10000) in H; [exact H | discriminate].
Qed.

Lemma round2_mono (x y : Q) : x <= y -> round2 x <= round2 y.
Proof.
  intros Hxy. unfold round2.
  assert (H : (round_half_even (x * 100) <= round_half_even (y * 100))%Z).
  { apply round_half_even_mono. lra. }
  apply inject_Z_le in H.
  apply Qmult_le_compat_r with (z := / 100) in H; [exact H | discriminate].
Qed.

(** A whole number of ten-thousandths (of cents) is left as it is. *)
Lemma round4_fixed (n : Z) : round4 (inject_Z n / 10000) == inject_Z n / 10000.
Proof.
  unfold round4.
  assert (E : inject_Z n / 10000 * 10000 == inject_Z n) by (field).
  rewrite (round_half_even_comp _ _ E), round_half_even_Z. reflexivity.
Qed.

Lemma round2_fixed (n : Z) : round2 (inject_Z n / 100) == inject_Z n / 100.
Proof.
  unfold round2.
  assert (E : inject_Z n / 100 * 100 == inject_Z n) by (field).
  rewrite (round_half_even_comp _ _ E), round_half_even_Z. reflexivity.
Qed.

(** Rounding keeps a number between two bounds that are themselves whole
    numbers of ten-thousandths. *)
Lemma round4_between (lo hi : Z) (x : Q) :
  inject_Z lo / 10000 <= x <= inject_Z hi / 10000 ->
  inject_Z lo / 10000 <= round4 x <= inject_Z hi / 10000.
Proof.
  intros [Hlo Hhi]. split.
  - rewrite <- (round4_fixed lo). now apply round4_mono.
  - rewrite <- (round4_fixed hi). now apply round4_mono.
Qed.

Lemma round4_near (x : Q) :
  round4 x - (1 # 20000) <= x /\ x <= round4 x + (1 # 20000).
Proof.
  destruct (round_half_even_near (x * 10000)) as [Hlo Hhi].
  unfold round4.
  set (n := inject_Z (round_half_even (x * 10000))) in *.
  assert (E : n / 10000 == n * (1 # 10000)) by (field).
  rewrite E. split; lra.
Qed.

Lemma round2_near (x : Q) :
  round2 x - (1 # 200) <= x /\ x <= round2 x + (1 # 200).
Proof.
  destruct (round_half_even_near (x * 100)) as [Hlo Hhi].
  unfold round2.
  set (n := inject_Z (round_half_even (x * 100))) in *.
  assert (E : n / 100 == n * (1 # 100)) by (field).
  rewrite E. split; lra.
Qed.

End Rounding.

(** ** Scorer: how implied probability, expected value and Kelly relate *)

Section ScorerRelations.

Import features.

Lemma implied_defined (a : Z) :
  a <> 0%Z ->
  exists imp b,
    american_to_implied (Some a) = Some imp /\ profit a = Ok b /\
    0 < b /\ 0 < imp < 1 /\ imp * (b + 1) == 1.
Proof.
  intros Ha. unfold american_to_implied, profit.
  destruct (a <? 0)%Z eqn:Eneg.
  - apply Z.ltb_lt in Eneg.
    assert (Epos : (a >? 0)%Z = false).
    { destruct (Z.gtb_spec a 0); [lia | reflexivity]. }
    rewrite Epos.
    pose proof (inject_Z_pos (- a) ltac:(lia)) as Hz.
    rewrite inject_Z_plus. change (inject_Z 100) with 100.
    set (z := inject_Z (- a)) in *.
    exists (z / (z + 100)), (100 / z).
    split; [reflexivity|]. split; [apply truediv_ok; lra|].
    split; [apply Qlt_shift_div_l; lra|].
    split; [split|].
    + apply Qlt_shift_div_l; lra.
    + apply Qlt_shift_div_r; lra.
    + field. split; lra.
  - apply Z.ltb_ge in Eneg.
    assert (Epos : (a >? 0)%Z = true) by (apply Z.gtb_lt; lia).
    rewrite Epos.
    pose proof (inject_Z_pos a ltac:(lia)) as Hz.
    rewrite inject_Z_plus. change (inject_Z 100) with 100.
    set (z := inject_Z a) in *.
    exists (100 / (z + 100)), (z / 100).
    split; [reflexivity|]. split; [apply truediv_ok; lra|].
    split; [apply Qlt_shift_div_l; lra|].
    split; [split|].
    + apply Qlt_shift_div_l; lra.
    + apply Qlt_shift_div_r; lra.
    + field. lra.
Qed.



End ScorerRelations.

Section KellyAndErrors.

Import features.

Lemma kelly_of_profit (p b : Q) (a : Z) :
  profit a = Ok b -> 0 < b ->
  ev_from_prob p a = Ok (p * b - (1 - p)) /\
  kelly_fraction p a = Ok (max0 ((p * (b + 1) - 1) / b)).
Proof.
  intros Hb Hpos. split; [unfold ev_from_prob; now rewrite Hb|].
  unfold kelly_fraction. rewrite Hb. simpl. unfold kelly_of_b.
  assert (Hnz : Qeq_bool b 0 = false) by (apply Qeq_bool_false; lra).
  rewrite Hnz. now rewrite truediv_ok by lra.
Qed.



(** X3.  Odds of 0 are the one input the two functions fail on: both raise
    [ZeroDivisionError] there, for every probability, and return a number
    everywhere else.  The zero guard of [kelly_fraction] is never reached
    through it. *)
Theorem zero_odds_raise (p : Q) (a : Z) :
  (a = 0%Z ->
   ev_from_prob p a = Raise ZeroDivisionError /\
   kelly_fraction p a = Raise ZeroDivisionError) /\
  (a <> 0%Z ->
   (exists v, ev_from_prob p a = Ok v) /\
   (exists f, kelly_fraction p a = Ok f)).
Proof.
  split.
  - intros ->. split; reflexivity.
  - intros Ha.
    destruct (profit_defined a Ha) as (b & Hb & _ & Hpos).
    destruct (kelly_of_profit p b a Hb Hpos) as [Hev Hk].
    eauto.
Qed.

Lemma zero_odds_raise_witness :
  (ev_from_prob 0.5 0 = Raise ZeroDivisionError /\
   kelly_fraction 0.5 0 = Raise ZeroDivisionError) /\
  ((exists v, ev_from_prob 0.5 (-110) = Ok v) /\
   (exists f, kelly_fraction 0.5 (-110) = Ok f)).
Proof.
  split.
  - apply (proj1 (zero_odds_raise 0.5 0%Z)). reflexivity.
  - apply (proj2 (zero_odds_raise 0.5 (-110)%Z)). lia.
Defined.

(** X4.  The aggregator ranks prices by [_american_payout_per_dollar], the
    scorer pays out by [profit].  On American odds (at least +100, or
    negative) the two are the same number; on a positive price below +100
    they differ: the aggregator reads it as 100/a, the scorer as a/100. *)
Theorem payout_and_profit (a : Z) :
  a <> 0%Z ->
  exists pay b,
    odds_tool._american_payout_per_dollar a = Ok pay /\ profit a = Ok b /\
    (pay == b <-> american a) /\
    ((0 < a < 100)%Z -> b < 1 /\ 1 < pay).
Proof.
  intros Ha.
  destruct (payout_defined a Ha) as (pay & Hpay & Hpays & _).
  destruct (profit_defined a Ha) as (b & Hb & Hbs & _).
  exists pay, b. split; [assumption|]. split; [assumption|].
  rewrite Hpays, Hbs. unfold payout_per_dollar, profit_if_win, american.
  destruct (Z.geb_spec a 100) as [Hge|Hlt].
  - assert (E : (a >? 0)%Z = true) by (apply Z.gtb_lt; lia). rewrite E.
    split; [|lia]. split; [intros _; lia | reflexivity].
  - destruct (Z.gtb_spec a 0) as [Hpos|Hneg].
    + pose proof (inject_Z_pos a Hpos) as Hz.
      assert (Hz100 : inject_Z a < 100).
      { unfold Qlt. simpl. lia. }
      replace (Z.abs a) with a by lia.
      assert (H1 : inject_Z a / 100 < 1) by (apply Qlt_shift_div_r; lra).
      assert (H2 : 1 < 100 / inject_Z a) by (apply Qlt_shift_div_l; lra).
      split; [|auto]. split; [intros H; lra | intros [?|?]; lia].
    + split; [|lia]. split; [intros _; lia | reflexivity].
Qed.

Lemma payout_and_profit_witness :
  exists pay b,
    odds_tool._american_payout_per_dollar 50 = Ok pay /\ profit 50 = Ok b /\
    (pay == b <-> american 50) /\
    ((0 < 50 < 100)%Z -> b < 1 /\ 1 < pay).
Proof. apply (payout_and_profit 50%Z). lia. Defined.

End KellyAndErrors.

(** ** ProbabilityAdjuster: the mapping and the shift *)

Section AdjusterMore.

Import injuries.

Definition well_formed (items : list (string * option Q)) : Prop :=
  Forall (fun kv => snd kv <> None) items.

Lemma comprehension_app (l1 l2 : list (string * option Q)) :
  forall acc,
    comprehension (l1 ++ l2) acc =
    match comprehension l1 acc with
    | Some acc' => comprehension l2 acc'
    | None => None
    end.
Proof.
  induction l1 as [|[k [v|]] l1 IH]; intros acc; simpl; auto.
Qed.

Lemma comprehension_total (items : list (string * option Q)) :
  well_formed items ->
  forall acc, exists adj, comprehension items acc = Some adj.
Proof.
  unfold well_formed.
  induction items as [|[k [v|]] rest IH]; intros Hwf acc; simpl.
  - eauto.
  - apply IH. now inversion Hwf.
  - inversion Hwf as [|? ? Hv _]; subst. simpl in Hv. congruence.
Qed.

Lemma comprehension_other (k : string) (items : list (string * option Q)) :
  ~ In k (List.map fst items) ->
  forall acc adj, comprehension items acc = Some adj -> adj !! k = acc !! k.
Proof.
  induction items as [|[k' [v|]] rest IH]; intros Hk acc adj H; simpl in *.
  - congruence.
  - rewrite (IH ltac:(tauto) _ _ H).
    apply lookup_insert_ne. intros ->. tauto.
  - discriminate.
Qed.

(** X5.  A file whose values all convert gives a mapping that holds, for each
    key, the value of the key's last entry, and nothing for a key the file
    does not list. *)
Theorem load_adjustments_last_entry
    (pre post : list (string * option Q)) (k : string) (v : Q) :
  well_formed (pre ++ (k, Some v) :: post) ->
  ~ In k (List.map fst post) ->
  _load_adjustments (Some (pre ++ (k, Some v) :: post)) !! k = Some v /\
  (forall k', ~ In k' (List.map fst (pre ++ (k, Some v) :: post)) ->
     _load_adjustments (Some (pre ++ (k, Some v) :: post)) !! k' = None).
Proof.
  intros Hwf Hlast. unfold _load_adjustments.
  destruct (comprehension_total _ Hwf ∅) as (adj & Hadj). rewrite Hadj.
  split.
  - rewrite comprehension_app in Hadj.
    destruct (comprehension pre ∅) as [acc|]; [|discriminate].
    simpl in Hadj.
    rewrite (comprehension_other k post Hlast _ _ Hadj).
    apply lookup_insert_eq.
  - intros k' Hk'.
    rewrite (comprehension_other k' _ Hk' _ _ Hadj). apply lookup_empty.
Qed.

Lemma load_adjustments_last_entry_witness :
  _load_adjustments
    (Some ([("Boston Celtics"%string, Some 0.02)] ++
           ("Boston Celtics"%string, Some (-0.06)) ::
           [("Memphis Grizzlies"%string, Some 0.03)]))
    !! "Boston Celtics"%string = Some (-0.06).
Proof.
  apply (load_adjustments_last_entry
           [("Boston Celtics"%string, Some 0.02)]
           [("Memphis Grizzlies"%string, Some 0.03)]
           "Boston Celtics"%string (-0.06)).
  - repeat constructor; simpl; discriminate.
  - simpl. intros [H|[]]. discriminate.
Defined.





End AdjusterMore.

(** ** OddsAggregator: errors, inferred names, and the best price *)

Section AggregatorMore.

Import odds_tool.

(** X7.  The comparator fails in one situation only: both prices are there and
    one of them is 0; the failure is a [ZeroDivisionError].  A price of 0
    met by an empty slot is stored without a complaint. *)
Theorem choose_better_moneyline_raises (current new : option Z) :
  (forall e, _choose_better_moneyline current new = Raise e ->
     e = ZeroDivisionError) /\
  ((exists e, _choose_better_moneyline current new = Raise e) <->
   exists c n, current = Some c /\ new = Some n /\ (c = 0%Z \/ n = 0%Z)).
Proof.
  destruct new as [n|], current as [c|]; simpl;
    try (split; [intros e; discriminate|];
         split; [intros (e & He); discriminate
                |intros (c0 & n0 & H1 & H2 & _); discriminate]).
  destruct (Z.eq_dec n 0%Z) as [->|Hn].
  - split; [intros e [= <-]; reflexivity|].
    split; [intros _; exists c, 0%Z; auto | intros _; eexists; reflexivity].
  - destruct (payout_defined n Hn) as (pn & Hpn & _). rewrite Hpn. simpl.
    destruct (Z.eq_dec c 0%Z) as [->|Hc].
    + split; [intros e [= <-]; reflexivity|].
      split; [intros _; exists 0%Z, n; auto | intros _; eexists; reflexivity].
    + destruct (payout_defined c Hc) as (pc & Hpc & _). rewrite Hpc. simpl.
      split; [intros e; discriminate|].
      split; [intros (e & He); discriminate|].
      intros (c0 & n0 & [= <-] & [= <-] & [?|?]); contradiction.
Qed.

(** X8.  Where the away name is missing and the event lists two different
    teams one of which is the home team, the away team is the other one.
    Where the list is missing or has another length, the away name stays
    missing. *)
Theorem away_team_inferred (e : event) (h t0 t1 : string) :
  truthy_str (or_str (ev_away_team e) (ev_awayTeam e)) = false ->
  resolve_home e = Some h -> h <> ""%string ->
  (ev_teams e = Some [t0; t1] -> t0 <> t1 -> h = t0 \/ h = t1 ->
   exists a, resolve_away e = Some a /\ a <> h /\ (a = t0 \/ a = t1)) /\
  (length (default [] (ev_teams e)) <> 2%nat ->
   truthy_str (resolve_away e) = false).
Proof.
  intros Haway Hhome Hne. unfold resolve_away. rewrite Haway, Hhome. simpl.
  assert (Hh : negb (String.eqb h "") = true).
  { apply negb_true_iff. now apply String.eqb_neq. }
  split.
  - intros -> Hdiff Hin. simpl. rewrite Hh.
    case_bool_decide as Hd; simpl.
    + injection Hd as ->. exists t1.
      split; [reflexivity|]. split; [congruence | auto].
    + exists t0. split; [reflexivity|]. split; [congruence | auto].
  - intros Hlen.
    destruct (default [] (ev_teams e)) as [|a [|b [|c l]]]; simpl in *;
      try assumption.
    contradiction.
Qed.

Lemma away_team_inferred_witness :
  exists a, resolve_away named_event = Some a /\
            a <> "Boston Celtics"%string /\
            (a = "Memphis Grizzlies"%string \/ a = "Boston Celtics"%string).
Proof.
  apply (proj1 (away_team_inferred named_event "Boston Celtics"
                  "Memphis Grizzlies" "Boston Celtics"
                  eq_refl eq_refl ltac:(discriminate)));
    [reflexivity | discriminate | auto].
Defined.

End AggregatorMore.

Section BestPriceIsMax.

Import odds_tool.

(** Slot [s] holds a price that pays at least what price [n] pays. *)
Definition covers (s : slot) (ms : market_set) (n : Z) : Prop :=
  exists c, slot_price s ms = Some c /\
            payout_per_dollar n <= payout_per_dollar c.

(** No slot pays less in [ms'] than it did in [ms]. *)
Definition no_worse (ms ms' : market_set) : Prop :=
  forall s n, covers s ms n -> covers s ms' n.

(** Every priced entry of the list is covered by the slot it is routed
    to. *)
Definition entries_covered (home away key : option string)
    (os : list outcome) (ms : market_set) : Prop :=
  forall o s n, In o os -> routed home away key o = Some s ->
    o_price o = Some n -> covers s ms n.

Lemma chosen_covers (current new better : option Z) :
  chosen current new better ->
  (forall n, new = Some n ->
     exists c, better = Some c /\
               payout_per_dollar n <= payout_per_dollar c) /\
  (forall m c, current = Some c ->
     payout_per_dollar m <= payout_per_dollar c ->
     exists c', better = Some c' /\
                payout_per_dollar m <= payout_per_dollar c').
Proof.
  intros [Hn | n Hc Hn | c n Hc Hn Hm | c n Hc Hn Hm]; subst;
    unfold pays_more in *; split.
  - discriminate.
  - eauto.
  - intros n0 [= <-]. exists n. split; [reflexivity | lra].
  - discriminate.
  - intros n0 [= <-]. exists n. split; [reflexivity | lra].
  - intros m c0 [= <-] Hle. exists n. split; [reflexivity | lra].
  - intros n0 [= <-]. exists c. split; [reflexivity | lra].
  - eauto.
Qed.

Lemma outcome_step_covers (home away key : option string)
    (ms : market_set) (o : outcome) :
  prices_nonzero ms -> nonzero (o_price o) ->
  exists ms',
    outcome_step home away key ms o = Ok ms' /\ prices_nonzero ms' /\
    no_worse ms ms' /\ entries_covered home away key [o] ms'.
Proof.
  intros Hms Ho.
  destruct (outcome_step_effect home away key ms o Hms Ho)
    as (ms' & Hstep & Hnz & Heff).
  exists ms'. split; [assumption|]. split; [assumption|].
  unfold entries_covered.
  destruct (routed home away key o) as [s0|] eqn:Hr0.
  - destruct Heff as (Hch & _ & Hframe).
    destruct (chosen_covers _ _ _ Hch) as [Hnew Hold].
    split.
    + intros s n (c & Hc & Hle).
      destruct (slot_eq_dec s s0) as [->|Hne].
      * now apply (Hold n c).
      * destruct (Hframe s Hne) as [Hp _]. exists c. now rewrite Hp.
    + intros o' s n [<-|[]] Hr Hn. rewrite Hr0 in Hr.
      injection Hr as <-. now apply Hnew.
  - subst ms'. split; [intros s n H; exact H|].
    intros o' s n [<-|[]] Hr. congruence.
Qed.

Lemma market_step_covers (home away : option string)
    (ms : market_set) (m : market) :
  prices_nonzero ms ->
  (forall o, In o (m_outcomes m) -> nonzero (o_price o)) ->
  exists ms',
    market_step home away ms m = Ok ms' /\ prices_nonzero ms' /\
    no_worse ms ms' /\
    entries_covered home away (m_key m) (m_outcomes m) ms'.
Proof.
  unfold market_step. generalize (m_key m) as key.
  intros key. revert ms.
  induction (m_outcomes m) as [|o os IH]; intros ms Hms Hq; simpl.
  - exists ms. repeat split; try assumption.
    + intros s n H. exact H.
    + intros o s n [].
  - destruct (outcome_step_covers home away key ms o Hms
                (Hq o (or_introl eq_refl)))
      as (ms1 & Hstep & Hnz1 & Hle1 & Hcov1).
    rewrite Hstep. simpl.
    destruct (IH ms1 Hnz1 (fun o' H => Hq o' (or_intror H)))
      as (ms2 & Hfold & Hnz2 & Hle2 & Hcov2).
    exists ms2. split; [assumption|]. split; [assumption|]. split.
    + intros s n H. apply Hle2, Hle1, H.
    + intros o' s n [<-|Hin] Hr Hn.
      * apply Hle2. apply (Hcov1 o s n); simpl; auto.
      * now apply (Hcov2 o' s n).
Qed.

(** All priced entries of the bookmakers in [bks] are covered. *)
Definition books_covered (home away : option string)
    (bks : list bookmaker) (ms : market_set) : Prop :=
  forall bk m, In bk bks -> In m (bk_markets bk) ->
    entries_covered home away (m_key m) (m_outcomes m) ms.

Lemma entries_covered_no_worse (home away key : option string)
    (os : list outcome) (ms ms' : market_set) :
  no_worse ms ms' -> entries_covered home away key os ms ->
  entries_covered home away key os ms'.
Proof. intros Hle Hcov o s n Hin Hr Hn. apply Hle. eauto. Qed.

Lemma markets_fold_covers (home away : option string) (ml : list market) :
  forall ms,
    prices_nonzero ms ->
    (forall m o, In m ml -> In o (m_outcomes m) -> nonzero (o_price o)) ->
    exists ms',
      foldM (market_step home away) ms ml = Ok ms' /\ prices_nonzero ms' /\
      no_worse ms ms' /\
      forall m, In m ml ->
        entries_covered home away (m_key m) (m_outcomes m) ms'.
Proof.
  induction ml as [|m ml IH]; intros ms Hms Hq; simpl.
  - exists ms. repeat split; try assumption.
    + intros s n H. exact H.
    + intros m [].
  - destruct (market_step_covers home away ms m Hms
                (fun o H => Hq m o (or_introl eq_refl) H))
      as (ms1 & Hstep & Hnz1 & Hle1 & Hcov1).
    rewrite Hstep. simpl.
    destruct (IH ms1 Hnz1 (fun m' o H => Hq m' o (or_intror H)))
      as (ms2 & Hfold & Hnz2 & Hle2 & Hcov2).
    exists ms2. split; [assumption|]. split; [assumption|]. split.
    + intros s n H. apply Hle2, Hle1, H.
    + intros m' [<-|Hin].
      * now apply (entries_covered_no_worse _ _ _ _ ms1).
      * now apply Hcov2.
Qed.

Lemma bookmakers_fold_covers (home away : option string)
    (bks : list bookmaker) :
  forall ms,
    prices_nonzero ms ->
    (forall bk m o, In bk bks -> In m (bk_markets bk) ->
       In o (m_outcomes m) -> nonzero (o_price o)) ->
    exists ms',
      foldM (bookmaker_step home away) ms bks = Ok ms' /\
      prices_nonzero ms' /\ no_worse ms ms' /\
      books_covered home away bks ms'.
Proof.
  induction bks as [|bk bks IH]; intros ms Hms Hq; simpl.
  - exists ms. repeat split; try assumption.
    + intros s n H. exact H.
    + intros bk m [].
  - destruct (markets_fold_covers home away (bk_markets bk) ms Hms
                (fun m o H => Hq bk m o (or_introl eq_refl) H))
      as (ms1 & Hstep & Hnz1 & Hle1 & Hcov1).
    unfold bookmaker_step at 1. rewrite Hstep. simpl.
    destruct (IH ms1 Hnz1 (fun bk' m o H => Hq bk' m o (or_intror H)))
      as (ms2 & Hfold & Hnz2 & Hle2 & Hcov2).
    exists ms2. split; [assumption|]. split; [assumption|]. split.
    + intros s n H. apply Hle2, Hle1, H.
    + intros bk' m [<-|Hin] Hm.
      * apply (entries_covered_no_worse _ _ _ _ ms1); auto.
      * exact (Hcov2 bk' m Hin Hm).
Qed.

(** X9.  The aggregated record holds the best price of each slot: for every
    priced outcome entry of the event, the slot the entry is compared
    against ends up with a price that pays at least as much.  (Prices that
    are there are not zero.) *)
Theorem aggregate_best_price (e : event) :
  quotes_nonzero e ->
  exists r,
    aggregate e = Ok r /\
    forall bk m o s n,
      In bk (ev_bookmakers e) -> In m (bk_markets bk) ->
      In o (m_outcomes m) ->
      routed (home_team r) (away_team r) (m_key m) o = Some s ->
      o_price o = Some n ->
      exists c, slot_price s (markets r) = Some c /\
                payout_per_dollar n <= payout_per_dollar c.
Proof.
  intros Hq. unfold aggregate.
  destruct (bookmakers_fold_covers (resolve_home e) (resolve_away e)
              (ev_bookmakers e) empty_markets)
    as (ms & Hfold & _ & _ & Hcov).
  - intros s. destruct s; exact I.
  - exact Hq.
  - rewrite Hfold. simpl. eexists. split; [reflexivity|]. simpl.
    intros bk m o s n Hbk Hm Ho Hr Hn.
    exact (Hcov bk m Hbk Hm o s n Ho Hr Hn).
Qed.

(** Two books quoting the home moneyline. *)
Definition two_books_event : event := {|
  ev_id := Some "e3"%string; ev_commence_time := None;
  ev_home_team := Some "Boston Celtics"%string; ev_homeTeam := None;
  ev_away_team := Some "Memphis Grizzlies"%string; ev_awayTeam := None;
  ev_teams := None;
  ev_bookmakers :=
    [ {| bk_markets :=
           [ {| m_key := Some "h2h"%string;
                m_outcomes :=
                  [ {| o_name := Some "Boston Celtics"%string;
                       o_price := Some (-150)%Z; o_point := None |} ] |} ] |};
      {| bk_markets :=
           [ {| m_key := Some "h2h"%string;
                m_outcomes :=
                  [ {| o_name := Some "Boston Celtics"%string;
                       o_price := Some (-140)%Z; o_point := None |} ] |} ] |} ];
|}.

Lemma aggregate_best_price_witness :
  exists r,
    aggregate two_books_event = Ok r /\
    exists c, slot_price H2HHome (markets r) = Some c /\
              payout_per_dollar (-150) <= payout_per_dollar c.
Proof.
  destruct (aggregate_best_price two_books_event) as (r & Hr & Hbest).
  - intros bk m o Hbk Hm Ho. simpl in Hbk.
    destruct Hbk as [<-|[<-|[]]]; simpl in Hm; destruct Hm as [<-|[]];
      simpl in Ho; destruct Ho as [<-|[]]; simpl; discriminate.
  - exists r. split; [assumption|].
    assert (Hnames : home_team r = Some "Boston Celtics"%string /\
                     away_team r = Some "Memphis Grizzlies"%string).
    { vm_compute in Hr. injection Hr as <-. split; reflexivity. }
    destruct Hnames as [Hh Ha].
    eapply (Hbest _ _ _ H2HHome (-150)%Z).
    + left. reflexivity.
    + left. reflexivity.
    + left. reflexivity.
    + rewrite Hh, Ha. reflexivity.
    + reflexivity.
Defined.

End BestPriceIsMax.

(** ** Scorer: the records [score_vs_market] produces *)

Section ScoredRecords.

Import odds_tool chains features.

Lemma round4_lower (lo : Z) (x : Q) :
  inject_Z lo / 10000 <= x -> inject_Z lo / 10000 <= round4 x.
Proof. intros H. rewrite <- (round4_fixed lo). now apply round4_mono. Qed.

Lemma round4_upper (hi : Z) (x : Q) :
  x <= inject_Z hi / 10000 -> round4 x <= inject_Z hi / 10000.
Proof. intros H. rewrite <- (round4_fixed hi). now apply round4_mono. Qed.

Lemma kelly_range (p b : Q) :
  0 < b -> 0 <= p <= 1 -> 0 <= max0 ((p * (b + 1) - 1) / b) <= p.
Proof.
  intros Hb [Hp0 Hp1]. split; [apply max0_nonneg|].
  unfold max0. qcases; [|assumption].
  set (q := (p * (b + 1) - 1) / b) in *.
  assert (Hdiv : q * b == p * (b + 1) - 1) by (unfold q; field; lra).
  assert (Hle : q * b <= p * b) by (rewrite Hdiv; lra).
  apply Qmult_lt_0_le_reg_r in Hle; assumption.
Qed.

(** What one side of a scored record holds, given the probability [p] the
    model (after adjustment) gives that side and the side's price [ml]. *)
Definition side_scored (p : Q) (ml : option Z)
    (imp edge ev kelly : option Q) : Prop :=
  match ml with
  | None => imp = None /\ edge = None /\ ev = None /\ kelly = None
  | Some a =>
      a <> 0%Z /\
      exists i b,
        american_to_implied (Some a) = Some i /\ profit a = Ok b /\
        0 < b /\ 0 < i < 1 /\
        imp = Some (round4 i) /\
        edge = Some (round4 (p - i)) /\
        ev = Some (round4 (p * b - (1 - p))) /\
        kelly = Some (round4 (max0 ((p * (b + 1) - 1) / b)))
  end.

Lemma when_priced_ok (f : Q -> Z -> result Q) (p : Q) (ml : option Z)
    (r : option Q) :
  when_priced f p ml = Ok r ->
  match ml with
  | None => r = None
  | Some a => exists v, f p a = Ok v /\ r = Some v
  end.
Proof.
  unfold when_priced. destruct ml as [a|].
  - destruct (f p a) as [v|e]; simpl; [|discriminate].
    intros [= <-]. eauto.
  - now intros [= <-].
Qed.

Lemma side_scored_intro (p : Q) (ml : option Z) (ev kelly : option Q) :
  when_priced ev_from_prob p ml = Ok ev ->
  when_priced kelly_fraction p ml = Ok kelly ->
  side_scored p ml
    (option_map round4 (american_to_implied ml))
    (option_map (fun _ => round4 (p - or_float (american_to_implied ml) 0))
       (american_to_implied ml))
    (option_map round4 ev) (option_map round4 kelly).
Proof.
  intros Hev Hk. apply when_priced_ok in Hev. apply when_priced_ok in Hk.
  destruct ml as [a|]; simpl; [|subst; auto].
  destruct Hev as (v & Hv & ->). destruct Hk as (f & Hf & ->).
  assert (Ha : a <> 0%Z) by (intros ->; discriminate).
  split; [assumption|].
  destruct (implied_defined a Ha) as (i & b & Hi & Hb & Hpos & Hrange & _).
  destruct (kelly_of_profit p b a Hb Hpos) as [Hv' Hf'].
  rewrite Hv in Hv'. injection Hv' as ->.
  rewrite Hf in Hf'. injection Hf' as ->.
  exists i, b. simpl in Hi. rewrite Hi. simpl.
  assert (Hnz : Qeq_bool i 0 = false) by (apply Qeq_bool_false; lra).
  rewrite Hnz. repeat split; tauto.
Qed.

Lemma score_game_sides (C : config) (gf : game_with_feats) (s : scored) :
  score_game C gf = Ok s ->
  exists p,
    0.01 <= p <= 0.99 /\
    model_home_win_prob s = round4 p /\
    model_away_win_prob s = round4 (1 - p) /\
    moneyline_home s = h2h_home_price (h2h (markets (g gf))) /\
    moneyline_away s = h2h_away_price (h2h (markets (g gf))) /\
    side_scored p (moneyline_home s) (market_implied_home s)
      (edge_home s) (ev_home s) (kelly_home s) /\
    side_scored (1 - p) (moneyline_away s) (market_implied_away s)
      (edge_away s) (ev_away s) (kelly_away s).
Proof.
  unfold score_game.
  set (p := injuries.adjust_home_prob _ _ _ _).
  destruct (when_priced ev_from_prob p _) as [evh|] eqn:E1;
    simpl; [|discriminate].
  destruct (when_priced kelly_fraction p _) as [kh|] eqn:E2;
    simpl; [|discriminate].
  destruct (when_priced ev_from_prob (1 - p) _) as [eva|] eqn:E3;
    simpl; [|discriminate].
  destruct (when_priced kelly_fraction (1 - p) _) as [ka|] eqn:E4;
    simpl; [|discriminate].
  intros [= <-]. simpl. exists p.
  split.
  { unfold p, injuries.adjust_home_prob. apply clamp_bounds. lra. }
  repeat split; try reflexivity.
  - now apply side_scored_intro.
  - now apply side_scored_intro.
Qed.

End ScoredRecords.

Section ScoredRecordFacts.

Import odds_tool chains features.

Lemma side_scored_presence (p : Q) (ml : option Z)
    (imp edge ev kelly : option Q) :
  side_scored p ml imp edge ev kelly ->
  ml <> Some 0%Z /\
  (imp = None <-> ml = None) /\ (edge = None <-> ml = None) /\
  (ev = None <-> ml = None) /\ (kelly = None <-> ml = None).
Proof.
  unfold side_scored. destruct ml as [a|].
  - intros (Ha & i & b & _ & _ & _ & _ & -> & -> & -> & ->).
    split; [congruence|]. repeat split; discriminate.
  - intros (-> & -> & -> & ->). split; [discriminate|]. tauto.
Qed.

(** X11.  In a scored record the implied probability, the edge, the expected
    value and the Kelly fraction of a side are there exactly when the
    side's moneyline price is, and a price that is there is not 0. *)
Theorem scored_values_follow_price
    (C : config) (gf : game_with_feats) (s : scored) :
  score_game C gf = Ok s ->
  (moneyline_home s <> Some 0%Z /\
   (market_implied_home s = None <-> moneyline_home s = None) /\
   (edge_home s = None <-> moneyline_home s = None) /\
   (ev_home s = None <-> moneyline_home s = None) /\
   (kelly_home s = None <-> moneyline_home s = None)) /\
  (moneyline_away s <> Some 0%Z /\
   (market_implied_away s = None <-> moneyline_away s = None) /\
   (edge_away s = None <-> moneyline_away s = None) /\
   (ev_away s = None <-> moneyline_away s = None) /\
   (kelly_away s = None <-> moneyline_away s = None)).
Proof.
  intros H.
  destruct (score_game_sides C gf s H) as (p & _ & _ & _ & _ & _ & Hh & Ha).
  split; eapply side_scored_presence; eassumption.
Qed.

Lemma scored_values_follow_price_witness :
  exists s, score_game fallback_config away_only_game = Ok s /\
            (ev_home s = None <-> moneyline_home s = None).
Proof.
  eexists. split; [vm_compute; reflexivity|].
  eapply (scored_values_follow_price fallback_config away_only_game).
  vm_compute. reflexivity.
Defined.

Lemma when_priced_nonzero (p : Q) (ml : option Z) :
  ml <> Some 0%Z ->
  (exists v, when_priced ev_from_prob p ml = Ok v) /\
  (exists f, when_priced kelly_fraction p ml = Ok f).
Proof.
  intros Hml. destruct ml as [a|]; simpl; [|eauto].
  assert (Ha : a <> 0%Z) by congruence.
  destruct (profit_defined a Ha) as (b & Hb & _ & Hpos).
  destruct (kelly_of_profit p b a Hb Hpos) as [-> ->]. simpl. eauto.
Qed.

(** X12.  Scoring a game fails exactly when one of its two moneyline prices is
    0, and then with a [ZeroDivisionError]. *)
Theorem score_game_fails_on_zero_price (C : config) (gf : game_with_feats) :
  let home_ml := h2h_home_price (h2h (markets (g gf))) in
  let away_ml := h2h_away_price (h2h (markets (g gf))) in
  ((exists s, score_game C gf = Ok s) <->
   home_ml <> Some 0%Z /\ away_ml <> Some 0%Z) /\
  (home_ml = Some 0%Z \/ away_ml = Some 0%Z ->
   score_game C gf = Raise ZeroDivisionError).
Proof.
  intros home_ml away_ml. split; [split|].
  - intros (s & Hs).
    destruct (score_game_sides C gf s Hs)
      as (p & _ & _ & _ & Eh & Ea & Hh & Ha).
    apply side_scored_presence in Hh. apply side_scored_presence in Ha.
    unfold home_ml, away_ml. rewrite <- Eh, <- Ea. tauto.
  - intros [Hh Ha]. unfold score_game. fold home_ml away_ml.
    set (p := injuries.adjust_home_prob _ _ _ _).
    destruct (when_priced_nonzero p home_ml Hh) as ((v1 & ->) & (f1 & ->)).
    destruct (when_priced_nonzero (1 - p) away_ml Ha)
      as ((v2 & ->) & (f2 & ->)).
    simpl. eauto.
  - intros Hzero. unfold score_game. fold home_ml away_ml.
    set (p := injuries.adjust_home_prob _ _ _ _).
    destruct Hzero as [-> | Ha]; [reflexivity|].
    destruct (decide (home_ml = Some 0%Z)) as [-> | Hh]; [reflexivity|].
    destruct (when_priced_nonzero p home_ml Hh) as ((v1 & ->) & (f1 & ->)).
    rewrite Ha. reflexivity.
Qed.

Lemma side_scored_bounds (p : Q) (ml : option Z)
    (imp edge ev kelly : option Q) :
  0.01 <= p <= 0.99 ->
  side_scored p ml imp edge ev kelly ->
  (forall i, imp = Some i -> 0 <= i <= 1) /\
  (forall d, edge = Some d -> -1 <= d <= 1) /\
  (forall v, ev = Some v -> -0.99 <= v) /\
  (forall k, kelly = Some k -> 0 <= k <= 0.99).
Proof.
  intros Hp. unfold side_scored. destruct ml as [a|].
  - intros (Ha & i & b & _ & _ & Hb & Hi & -> & -> & -> & ->).
    assert (E0 : inject_Z 0 / 10000 == 0) by reflexivity.
    assert (E1 : inject_Z 10000 / 10000 == 1) by reflexivity.
    assert (Em1 : inject_Z (-10000) / 10000 == -1) by reflexivity.
    assert (E99 : inject_Z 9900 / 10000 == 0.99) by reflexivity.
    assert (Em99 : inject_Z (-9900) / 10000 == -0.99) by reflexivity.
    split; [|split; [|split]]; intros x [= <-].
    + split.
      * rewrite <- E0. apply round4_lower. lra.
      * rewrite <- E1. apply round4_upper. lra.
    + split.
      * rewrite <- Em1. apply round4_lower. lra.
      * rewrite <- E1. apply round4_upper. lra.
    + rewrite <- Em99. apply round4_lower. rewrite Em99. nra.
    + split.
      * rewrite <- E0. apply round4_lower. rewrite E0. apply max0_nonneg.
      * rewrite <- E99. apply round4_upper. rewrite E99.
        pose proof (kelly_range p b Hb ltac:(lra)). lra.
  - intros (-> & -> & -> & ->). repeat split; discriminate.
Qed.

(** X13.  The numbers of a scored record stay in range: both win probabilities
    lie in [0.01, 0.99]; an expected value is never below -0.99, a Kelly
    fraction lies in [0, 0.99], an implied probability in [0, 1] and an
    edge in [-1, 1]. *)
Theorem scored_values_in_range
    (C : config) (gf : game_with_feats) (s : scored) :
  score_game C gf = Ok s ->
  0.01 <= model_home_win_prob s <= 0.99 /\
  0.01 <= model_away_win_prob s <= 0.99 /\
  (forall v, ev_home s = Some v \/ ev_away s = Some v -> -0.99 <= v) /\
  (forall k, kelly_home s = Some k \/ kelly_away s = Some k ->
     0 <= k <= 0.99) /\
  (forall i, market_implied_home s = Some i \/ market_implied_away s = Some i ->
     0 <= i <= 1) /\
  (forall d, edge_home s = Some d \/ edge_away s = Some d -> -1 <= d <= 1).
Proof.
  intros H.
  destruct (score_game_sides C gf s H)
    as (p & Hp & Emh & Ema & _ & _ & Hh & Ha).
  assert (Hq : 0.01 <= 1 - p <= 0.99) by lra.
  destruct (side_scored_bounds _ _ _ _ _ _ Hp Hh) as (Hi1 & Hd1 & Hv1 & Hk1).
  destruct (side_scored_bounds _ _ _ _ _ _ Hq Ha) as (Hi2 & Hd2 & Hv2 & Hk2).
  assert (E1 : inject_Z 100 / 10000 == 0.01) by reflexivity.
  assert (E99 : inject_Z 9900 / 10000 == 0.99) by reflexivity.
  rewrite Emh, Ema, <- E1, <- E99.
  split; [apply round4_between; rewrite E1, E99; lra|].
  split; [apply round4_between; rewrite E1, E99; lra|].
  split; [|split; [|split]]; intros x [Hx|Hx]; eauto.
Qed.

Lemma scored_values_in_range_witness :
  exists s, score_game fallback_config even_money_game = Ok s /\
            0.01 <= model_home_win_prob s <= 0.99.
Proof.
  eexists. split; [vm_compute; reflexivity|].
  eapply (scored_values_in_range fallback_config even_money_game).
  vm_compute. reflexivity.
Defined.

End ScoredRecordFacts.

(** ** Ranker: on the records the scorer produces *)

Section RankerOnScored.

Import odds_tool chains features.

(** A game with a home moneyline of 0 and no away price. *)
Definition zero_price_game : game_with_feats := {|
  g := {| id := Some "e4"%string;
          commence_time := None;
          home_team := Some "Boston Celtics"%string;
          away_team := Some "Memphis Grizzlies"%string;
          markets := {| h2h := {| h2h_home_price := Some 0%Z;
                                  h2h_away_price := None |};
                        spreads := spreads empty_markets;
                        totals := totals empty_markets |} |};
  home_feats := ∅;
  away_feats := ∅;
|}.

Lemma score_game_fails_on_zero_price_witness :
  score_game fallback_config zero_price_game = Raise ZeroDivisionError.
Proof.
  apply (proj2 (score_game_fails_on_zero_price fallback_config zero_price_game)).
  left. reflexivity.
Defined.

(** X14.  In the pipeline the edge fallback never ranks by a number.  The ranker
    names the metric "edge" exactly when the game has no moneyline price
    on either side; a scored record then has no edge on either side
    either, so the game is given the home side and no metric. *)
Theorem edge_fallback_has_no_metric
    (C : config) (gf : game_with_feats) (s : scored) :
  score_game C gf = Ok s ->
  (metric_name (pick s) = "edge"%string <->
   moneyline_home s = None /\ moneyline_away s = None) /\
  (metric_name (pick s) = "edge"%string ->
   best_metric (pick s) = None /\ best_side (pick s) = "home"%string).
Proof.
  intros H.
  destruct (score_game_sides C gf s H) as (p & _ & _ & _ & _ & _ & Hh & Ha).
  unfold side_scored in Hh, Ha. unfold pick.
  destruct (moneyline_home s) as [a1|], (moneyline_away s) as [a2|].
  - destruct Hh as (_ & ? & ? & _ & _ & _ & _ & _ & _ & -> & _).
    simpl. split; [split; [discriminate | intros [? _]; discriminate]|].
    discriminate.
  - destruct Hh as (_ & ? & ? & _ & _ & _ & _ & _ & _ & -> & _).
    simpl. split; [split; [discriminate | intros [? _]; discriminate]|].
    discriminate.
  - destruct Hh as (_ & _ & -> & _).
    destruct Ha as (_ & ? & ? & _ & _ & _ & _ & _ & _ & -> & _).
    simpl. split; [split; [discriminate | intros [_ ?]; discriminate]|].
    discriminate.
  - destruct Hh as (_ & -> & -> & _). destruct Ha as (_ & -> & -> & _).
    simpl. split; [split; auto|]. auto.
Qed.

(** A game without any moneyline price. *)
Definition unpriced_game : game_with_feats := {|
  g := {| id := Some "e5"%string;
          commence_time := None;
          home_team := Some "Denver Nuggets"%string;
          away_team := Some "Utah Jazz"%string;
          markets := empty_markets |};
  home_feats := ∅;
  away_feats := ∅;
|}.

Lemma edge_fallback_has_no_metric_witness :
  exists s, score_game fallback_config unpriced_game = Ok s /\
            best_metric (pick s) = None /\
            best_side (pick s) = "home"%string.
Proof.
  eexists. split; [vm_compute; reflexivity|].
  eapply (edge_fallback_has_no_metric fallback_config unpriced_game).
  - vm_compute. reflexivity.
  - reflexivity.
Defined.





End RankerOnScored.

Section RankedPipeline.

Import odds_tool chains features.

Lemma StronglySorted_app_r {A : Type} (R : A -> A -> Prop) (l1 l2 : list A) :
  StronglySorted R (l1 ++ l2) -> StronglySorted R l2.
Proof.
  induction l1 as [|x l1 IH]; simpl; [auto|].
  intros H. apply IH. now inversion H.
Qed.

Lemma best_metric_source (s : scored) :
  best_metric (pick s) = ev_home s \/ best_metric (pick s) = ev_away s \/
  best_metric (pick s) = edge_home s \/ best_metric (pick s) = edge_away s.
Proof.
  unfold pick.
  destruct (negb _ || negb _); simpl; destruct (Qge_bool _ _); simpl; auto.
Qed.

(** X16.  In the ranking of a scored list no game without a metric stands before
    a game with one: behind the first recommendation whose metric is
    absent, every metric is absent. *)
Theorem no_metric_ranks_last
    (C : config) (gfs : list game_with_feats) (scored : list scored)
    (l1 l2 : list recommendation) (r : recommendation) :
  score_vs_market C gfs = Ok scored ->
  rank_recs scored = l1 ++ r :: l2 ->
  best_metric r = None ->
  Forall (fun r' => best_metric r' = None) l2.
Proof.
  intros Hscore Hrank Hr.
  pose proof (sort_desc_sorted sort_key (List.map pick scored)) as Hsorted.
  fold (rank_recs scored) in Hsorted. unfold descending in Hsorted.
  rewrite Hrank in Hsorted. apply StronglySorted_app_r in Hsorted.
  inversion Hsorted as [|? ? _ Hall]; subst.
  apply List.Forall_forall. intros r' Hin.
  rewrite List.Forall_forall in Hall. specialize (Hall r' Hin).
  unfold sort_key in Hall at 2. rewrite Hr in Hall.
  destruct (best_metric r') as [m|] eqn:Hm; [exfalso | reflexivity].
  unfold sort_key in Hall. rewrite Hm in Hall.
  assert (Hin' : In r' (rank_recs scored)).
  { rewrite Hrank. apply in_or_app. right. now right. }
  apply (Permutation_in _ (sort_desc_perm sort_key (List.map pick scored)))
    in Hin'.
  apply in_map_iff in Hin'. destruct Hin' as (s & <- & Hs).
  apply (mapM_In (score_game C) gfs scored Hscore) in Hs.
  destruct Hs as (gf & _ & Hgf).
  destruct (score_game_sides C gf s Hgf) as (p & Hp & _ & _ & _ & _ & Hh & Ha).
  assert (Hq : 0.01 <= 1 - p <= 0.99) by lra.
  destruct (side_scored_bounds _ _ _ _ _ _ Hp Hh) as (_ & Hd1 & Hv1 & _).
  destruct (side_scored_bounds _ _ _ _ _ _ Hq Ha) as (_ & Hd2 & Hv2 & _).
  assert (Hlow : -1 <= m).
  { destruct (best_metric_source s) as [E|[E|[E|E]]]; rewrite Hm in E;
      symmetry in E.
    - specialize (Hv1 m E). lra.
    - specialize (Hv2 m E). lra.
    - apply (Hd1 m E).
    - apply (Hd2 m E). }
  lra.
Qed.

Lemma no_metric_ranks_last_witness :
  exists scored r0 r1 r2,
    score_vs_market fallback_config
      [unpriced_game; even_money_game; away_only_game] = Ok scored /\
    rank_recs scored = [r0; r1; r2] /\
    best_metric r1 = None /\
    Forall (fun r' => best_metric r' = None) [r2].
Proof.
  eexists. eexists. eexists. eexists.
  split; [vm_compute; reflexivity|].
  split; [vm_compute; reflexivity|].
  split; [reflexivity|].
  eapply (no_metric_ranks_last fallback_config
            [unpriced_game; even_money_game; away_only_game] _ [_] [_] _).
  - vm_compute. reflexivity.
  - vm_compute. reflexivity.
  - reflexivity.
Defined.





End RankedPipeline.

(** ** TeamFeatureCache: the file, the calls and the clock *)

Section CacheFile.

Import cache.



End CacheFile.

Section FetchResources.

Import cache stats_tool.

Variable E : env.
Variable team_id : Z.

Definition latency (r : response) : Q :=
  match r with
  | Frame l _ => l
  | Failure l => l
  end.

(** One world follows another in a lookup for [team_id]: at most [n] more
    live calls, the other teams' files and the write permission as they
    were, and the clock not set back when latencies are not negative. *)
Definition follows (n : nat) (w w' : world) : Prop :=
  (live_calls w <= live_calls w' <= live_calls w + n)%nat /\
  (forall other, other <> team_id -> disk w' !! other = disk w !! other) /\
  writable w' = writable w /\
  ((forall k, 0 <= latency (service E team_id k)) -> clock w <= clock w').

Lemma follows_refl (w : world) : follows 0 w w.
Proof. unfold follows. repeat split; try lia; auto. lra. Qed.

Lemma follows_trans (n m : nat) (w1 w2 w3 : world) :
  follows n w1 w2 -> follows m w2 w3 -> follows (n + m) w1 w3.
Proof.
  intros (Hc1 & Hd1 & Hw1 & Ht1) (Hc2 & Hd2 & Hw2 & Ht2).
  unfold follows. repeat split; try lia.
  - intros other Hne. rewrite Hd2, Hd1; auto.
  - congruence.
  - intros Hl. specialize (Ht1 Hl). specialize (Ht2 Hl). lra.
Qed.

Lemma follows_weaken (n m : nat) (w w' : world) :
  (n <= m)%nat -> follows n w w' -> follows m w w'.
Proof.
  intros Hnm (Hc & Hd & Hw & Ht). unfold follows. repeat split; auto; lia.
Qed.

Lemma follows_sleep (d : Q) (w : world) : 0 <= d -> follows 0 w (sleep d w).
Proof.
  intros Hd. unfold follows, sleep. simpl. repeat split; try lia; auto.
  lra.
Qed.

Lemma follows_call (w : world) :
  follows 1 w (snd (call_service E team_id w)).
Proof.
  unfold follows, call_service. simpl. repeat split; try lia; auto.
  intros Hl. specialize (Hl (live_calls w)). unfold latency in Hl.
  destruct (service E team_id (live_calls w)); lra.
Qed.

Lemma follows_write (w : world) (df : DataFrame) :
  follows 0 w (write_df_cache w team_id df).
Proof.
  unfold follows, write_df_cache.
  destruct (writable w) eqn:Hw; simpl; repeat split; try lia; auto; try lra.
  intros other Hne. now rewrite lookup_insert_ne by congruence.
Qed.

Lemma fetch_loop_follows (remaining : nat) :
  forall i w, follows remaining w (snd (fetch_loop E team_id remaining i w)).
Proof.
  induction remaining as [|k IH]; intros i w; cbn [fetch_loop].
  - apply follows_refl.
  - pose proof (follows_sleep 0.6 w ltac:(lra)) as H1.
    pose proof (follows_call (_nba_sleep w)) as H2.
    unfold _nba_sleep in *.
    destruct (call_service E team_id (sleep 0.6 w)) as [r w1] eqn:Ecall.
    cbn [snd] in H2.
    pose proof (follows_trans _ _ _ _ _ H1 H2) as H12. cbn [Nat.add] in H12.
    destruct r as [l df|l].
    + destruct (empty df); cbn [negb snd].
      * apply (follows_trans 1 k _ w1); [assumption | apply IH].
      * apply (follows_weaken 1); [lia|].
        apply (follows_trans 1 0 _ w1); [assumption | apply follows_write].
    + apply (follows_trans 1 k _ w1); [assumption|].
      apply (follows_trans 0 k _ (sleep (1 + inject_Z (Z.of_nat i)) w1));
        [|apply IH].
      apply follows_sleep.
      assert (0 <= inject_Z (Z.of_nat i)) by (unfold Qle; simpl; lia).
      lra.
Qed.

Lemma cached_or_fetched_follows (w : world) :
  follows 2 w (snd (cached_or_fetched E w team_id)).
Proof.
  unfold cached_or_fetched.
  destruct (read_df_cache w team_id (CACHE_HOURS E)).
  - apply (follows_weaken 0); [lia | apply follows_refl].
  - unfold _fetch_team_gamelog.
    pose proof (fetch_loop_follows 2 0%nat w) as H.
    destruct (fetch_loop E team_id 2 0 w) as [[df|] w1]; [exact H|].
    destruct (read_df_cache w1 team_id 9999); exact H.
Qed.

(** X21.  A lookup makes at most 2 live calls, leaves the files of all other
    teams and the write permission as they were, and (latencies not being
    negative) never sets the clock back.  A name the team table does not
    know costs nothing: no call, no sleep, no write, an empty snapshot. *)
Theorem lookup_is_bounded (w : world) (name : option string) (last_n : nat) :
  (name ≫= (fun n => teams E !! n) = Some team_id ->
   follows 2 w (snd (rolling_team_features E w name last_n))) /\
  (name ≫= (fun n => teams E !! n) = None ->
   rolling_team_features E w name last_n = (∅, w)).
Proof.
  unfold rolling_team_features. split; intros Hid; rewrite Hid.
  - pose proof (cached_or_fetched_follows w) as H.
    destruct (cached_or_fetched E w team_id) as [df w1].
    destruct (empty df); [exact H|].
    destruct (empty _); exact H.
  - reflexivity.
Qed.


(** X23.  The waits of the retry loop.  Two attempts that raise cost 0.6 + 1 +
    0.6 + 2 seconds of sleep besides the two latencies; two attempts that
    answer with an empty frame are retried without the back-off and cost
    0.6 + 0.6 seconds. *)
Theorem retry_waits (w : world) (l0 l1 : Q) :
  (service E team_id (live_calls w) = Failure l0 ->
   service E team_id (S (live_calls w)) = Failure l1 ->
   clock (snd (_fetch_team_gamelog E w team_id 2))
   == clock w + 4.2 + l0 + l1) /\
  (service E team_id (live_calls w) = Frame l0 [] ->
   service E team_id (S (live_calls w)) = Frame l1 [] ->
   clock (snd (_fetch_team_gamelog E w team_id 2))
   == clock w + 1.2 + l0 + l1).
Proof.
  split; intros H0 H1; unfold _fetch_team_gamelog; simpl;
    unfold call_service; simpl; rewrite H0; simpl; rewrite H1; simpl;
    match goal with
    | |- context [read_df_cache ?w0 team_id 9999] =>
        destruct (read_df_cache w0 team_id 9999)
    end; simpl; ring.
Qed.

End FetchResources.

Lemma lookup_is_bounded_witness :
  (live_calls (snd (stats_tool.rolling_team_features service_down_env
                      old_cache_world (Some "Boston Celtics"%string) 10))
   <= live_calls old_cache_world + 2)%nat.
Proof.
  apply (proj1 (lookup_is_bounded service_down_env 1610612738
                  old_cache_world (Some "Boston Celtics"%string) 10)).
  reflexivity.
Defined.



Lemma retry_waits_witness :
  clock (snd (stats_tool._fetch_team_gamelog service_down_env
                old_cache_world 1610612738 2))
  == clock old_cache_world + 4.2 + 0 + 0.
Proof.
  apply (proj1 (retry_waits service_down_env 1610612738 old_cache_world 0 0));
    reflexivity.
Defined.

(** ** Dashboard: the filter and the stakes *)

Section Dashboard.

Import chains app.

Lemma rec_pick (s : scored) : rec (pick s) = s.
Proof. unfold pick. destruct (negb _ || negb _); reflexivity. Qed.

Lemma max2_ge (a b c : Q) : c <= max2 a b <-> c <= a \/ c <= b.
Proof.
  unfold max2. qcases; split.
  - auto.
  - intros [H|H]; lra.
  - auto.
  - intros [H|H]; lra.
Qed.

Lemma default_ge (x : option Q) (d c : Q) :
  d < c -> (c <= default d x <-> exists v, x = Some v /\ c <= v).
Proof.
  intros Hd. destruct x as [v|]; simpl.
  - split; [eauto | intros (v' & [= <-] & H); exact H].
  - split; [intros H; lra | intros (v' & [=] & _)].
Qed.

(** X25.  On a recommendation built from a scored game, with a Kelly threshold
    of at most 0 (the default is 0) and an EV threshold above -999, the
    filter keeps a game exactly when one of its sides has an expected
    value that is there and at least the threshold: the Kelly test never
    rejects anything, and a game without prices never passes. *)
Theorem passes_filters_by_ev
    (C : config) (gf : game_with_feats) (r : recommendation)
    (min_ev min_kelly : Q) :
  score_game C gf = Ok (rec r) ->
  min_kelly <= 0 -> -999 < min_ev ->
  (passes_filters r min_ev min_kelly = true <->
   exists v, (ev_home (rec r) = Some v \/ ev_away (rec r) = Some v) /\
             min_ev <= v).
Proof.
  intros Hs Hk Hev.
  destruct (score_game_sides C gf (rec r) Hs)
    as (p & Hp & _ & _ & _ & _ & Hh & Ha).
  assert (Hq : 0.01 <= 1 - p <= 0.99) by lra.
  destruct (side_scored_bounds _ _ _ _ _ _ Hp Hh) as (_ & _ & _ & Hk1).
  unfold passes_filters. rewrite andb_true_iff, !Qge_bool_iff, !max2_ge.
  rewrite !(default_ge _ (-999) min_ev) by assumption.
  split.
  - intros [[(v & Hv & Hle)|(v & Hv & Hle)] _]; exists v; auto.
  - intros (v & [Hv|Hv] & Hle); (split; [eauto|]).
    + left. destruct (kelly_home (rec r)) as [k|]; simpl; [|lra].
      specialize (Hk1 k eq_refl). lra.
    + left. destruct (kelly_home (rec r)) as [k|]; simpl; [|lra].
      specialize (Hk1 k eq_refl). lra.
Qed.

Lemma passes_filters_by_ev_witness :
  exists s,
    score_game fallback_config even_money_game = Ok s /\
    (passes_filters (pick s) 0 0 = true <->
     exists v, (ev_home s = Some v \/ ev_away s = Some v) /\ 0 <= v).
Proof.
  destruct (score_game fallback_config even_money_game) as [s|] eqn:Hs;
    [|vm_compute in Hs; discriminate].
  exists s. split; [reflexivity|].
  pose proof (passes_filters_by_ev fallback_config even_money_game
                (pick s) 0 0) as H.
  rewrite rec_pick in H.
  apply H; [exact Hs | discriminate | reflexivity].
Defined.

Lemma or_float_range (k : option Q) :
  (forall v, k = Some v -> 0 <= v <= 1) -> 0 <= or_float k 0 <= 1.
Proof.
  intros H. destruct k as [v|]; simpl; [|lra].
  specialize (H v eq_refl). qcases; lra.
Qed.

(** X26.  A stake is never negative and, for a Kelly fraction in [0, 1] and a
    bankroll that is not negative, never more than half a cent above the
    bankroll; it stays within a bankroll that is a whole number of cents.
    Half Kelly never stakes more than full Kelly, and an empty bankroll
    stakes nothing. *)
Theorem stake_within_bankroll (hk : bool) (bk : Q) (kelly : option Q) :
  0 <= bk ->
  (forall v, kelly = Some v -> 0 <= v <= 1) ->
  0 <= stake hk bk kelly <= bk + 0.005 /\
  (forall cents : Z, bk == inject_Z cents / 100 -> stake hk bk kelly <= bk) /\
  stake true bk kelly <= stake false bk kelly /\
  (bk == 0 -> stake hk bk kelly == 0).
Proof.
  intros Hbk Hk. apply or_float_range in Hk.
  set (k := or_float kelly 0) in *.
  assert (Hf : 0 < k_factor hk <= 1) by (destruct hk; simpl; lra).
  assert (H1 : 0 <= bk * k) by (apply Qmult_le_0_compat; lra).
  assert (H2 : 0 <= bk * (1 - k)) by (apply Qmult_le_0_compat; lra).
  assert (H3 : 0 <= bk * k * k_factor hk) by (apply Qmult_le_0_compat; lra).
  assert (H4 : 0 <= bk * k * (1 - k_factor hk))
    by (apply Qmult_le_0_compat; lra).
  assert (Hprod : 0 <= bk * k * k_factor hk <= bk) by (split; lra).
  assert (E0 : inject_Z 0 / 100 == 0) by reflexivity.
  unfold stake. fold k. split; [|split; [|split]].
  - destruct (Qeq_bool bk 0); simpl; [lra|].
    pose proof (round2_near (bk * k * k_factor hk)) as [Hlo Hhi].
    split; [|lra].
    rewrite <- E0, <- (round2_fixed 0). apply round2_mono.
    rewrite E0. lra.
  - intros cents Hc. destruct (Qeq_bool bk 0); simpl; [lra|].
    rewrite Hc at 2. rewrite <- (round2_fixed cents).
    apply round2_mono. rewrite <- Hc. lra.
  - destruct (Qeq_bool bk 0); simpl; [lra|].
    apply round2_mono. nra.
  - intros Hz. apply Qeq_bool_iff in Hz. rewrite Hz. simpl. reflexivity.
Qed.

Lemma stake_within_bankroll_witness :
  0 <= stake true 1000 (Some 0.0833) <= 1000 + 0.005.
Proof.
  apply (stake_within_bankroll true 1000 (Some 0.0833)).
  - discriminate.
  - intros v [= <-]. split; discriminate.
Defined.

End Dashboard.

(** ** Pipeline: the first stage *)

Section FetchOdds.

Import odds_tool chains.

(** An event whose home and away names (the away name after inference)
    are both there. *)
Definition named (e : event) : bool :=
  truthy_str (resolve_home e) && truthy_str (resolve_away e).

Definition event_head (e : event)
    : option string * option string * option string * option string :=
  (ev_id e, ev_commence_time e, resolve_home e, resolve_away e).

Definition game_head (g : game)
    : option string * option string * option string * option string :=
  (id g, commence_time g, home_team g, away_team g).

Lemma aggregate_head (e : event) (r : game) :
  aggregate e = Ok r -> game_head r = event_head e.
Proof.
  unfold aggregate. destruct (foldM _ _ _); simpl; [|discriminate].
  now intros [= <-].
Qed.

Lemma mapM_raise {A B : Type} (f : A -> result B) (l : list A) (x : A)
    (e : exn) :
  In x l -> f x = Raise e -> exists e', mapM f l = Raise e'.
Proof.
  induction l as [|y l IH]; intros Hin Hx; simpl; [destruct Hin|].
  destruct Hin as [->|Hin].
  - rewrite Hx. simpl. eauto.
  - destruct (f y); simpl; [|eauto].
    destruct (IH Hin Hx) as (e' & ->). simpl. eauto.
Qed.

(** X10.  [fetch_odds] returns one game per named event, in the order of the
    response, with the event's id, start time and resolved names.  The
    prices of every event are aggregated before the nameless ones are
    dropped, so an event whose aggregation fails fails the whole fetch,
    named or not. *)
Theorem fetch_odds_keeps_order (data : list event) :
  (forall games, fetch_odds (Ok data) = Ok games ->
     List.map game_head games
     = List.map event_head (List.filter named data)) /\
  (forall e ex, In e data -> aggregate e = Raise ex ->
     exists ex', fetch_odds (Ok data) = Raise ex').
Proof.
  split.
  - unfold fetch_odds, get_nba_odds. simpl.
    induction data as [|e data IH]; intros games H; simpl in H.
    + now injection H as <-.
    + destruct (aggregate e) as [r|] eqn:Er; simpl in H; [|discriminate].
      destruct (mapM aggregate data) as [rs|] eqn:Ers; simpl in *;
        [|discriminate].
      injection H as <-.
      pose proof (aggregate_head e r Er) as Hhead.
      assert (Hn : truthy_str (home_team r) && truthy_str (away_team r)
                   = named e).
      { unfold named. unfold game_head, event_head in Hhead.
        injection Hhead as _ _ -> ->. reflexivity. }
      rewrite Hn. destruct (named e); simpl.
      * rewrite Hhead. f_equal. now apply IH.
      * now apply IH.
  - intros e ex Hin He. unfold fetch_odds, get_nba_odds. simpl.
    destruct (mapM_raise aggregate data e ex Hin He) as (ex' & ->).
    simpl. eauto.
Qed.

Lemma fetch_odds_keeps_order_witness :
  List.map game_head [named_game]
  = List.map event_head (List.filter named [named_event; nameless_event]).
Proof.
  apply (proj1 (fetch_odds_keeps_order [named_event; nameless_event])).
  reflexivity.
Defined.

End FetchOdds.

(** ** TeamFeatureCache: the age limit of the last resort *)

Section LastResort.

Import cache stats_tool.

(** X24.  When the file is too old for the first read and both live attempts
    raise, the file is read again with a limit of 9999 hours, and its age
    is then taken after the waits of the two attempts: the dataset is
    returned when the age at the first read plus 4.2 seconds plus the two
    latencies is within the limit, and an empty frame otherwise. *)
Theorem last_resort_age_limit
    (E : env) (team_id : Z) (w : world) (f : file) (df : DataFrame)
    (l0 l1 : Q) :
  disk w !! team_id = Some f -> csv f = Some df ->
  CACHE_HOURS E * 3600 < age_sec w f ->
  service E team_id (live_calls w) = Failure l0 ->
  service E team_id (S (live_calls w)) = Failure l1 ->
  (age_sec w f + 4.2 + l0 + l1 <= 9999 * 3600 ->
   fst (cached_or_fetched E w team_id) = df) /\
  (9999 * 3600 < age_sec w f + 4.2 + l0 + l1 ->
   fst (cached_or_fetched E w team_id) = []).
Proof.
  intros Hf Hcsv Hstale H0 H1. unfold cached_or_fetched.
  rewrite (read_df_cache_beyond team_id w f _ Hf Hstale).
  unfold _fetch_team_gamelog. simpl. unfold call_service. simpl.
  rewrite H0. simpl. rewrite H1. simpl.
  unfold age_sec in *. split; intros Hage.
  - erewrite read_df_cache_within; [rewrite Hcsv; reflexivity | exact Hf |].
    unfold age_sec. simpl.
    change (inject_Z (Z.of_nat 0)) with 0.
    change (inject_Z (Z.of_nat 1)) with 1. lra.
  - erewrite read_df_cache_beyond; [reflexivity | exact Hf |].
    unfold age_sec. simpl.
    change (inject_Z (Z.of_nat 0)) with 0.
    change (inject_Z (Z.of_nat 1)) with 1. lra.
Qed.

Lemma last_resort_age_limit_witness :
  fst (cached_or_fetched service_down_env old_cache_world 1610612738) = [].
Proof.
  apply (proj2 (last_resort_age_limit service_down_env 1610612738
                  old_cache_world
                  {| mtime := 0; csv := Some old_game_log |} old_game_log
                  0 0 eq_refl eq_refl eq_refl eq_refl eq_refl)).
  reflexivity.
Defined.

End LastResort.

(** ** Feature row: team names with stray blanks *)

Section TeamNames.

Import features.

(** Only white space. *)
Fixpoint blank (s : string) : bool :=
  match s with
  | EmptyString => true
  | String c t => is_space c && blank t
  end.

(** Nothing to strip: no white space at either end. *)
Definition trimmed (s : string) : Prop := lstrip s = s /\ rstrip s = s.

Lemma lstrip_length (s : string) :
  (String.length (lstrip s) <= String.length s)%nat.
Proof.
  induction s as [|c t IH]; simpl; [lia|].
  destruct (is_space c); simpl; lia.
Qed.

Lemma lstrip_fixed_head (c : ascii) (t : string) :
  lstrip (String c t) = String c t -> is_space c = false.
Proof.
  simpl. destruct (is_space c); [|reflexivity].
  intros H. pose proof (lstrip_length t) as Hlen.
  rewrite H in Hlen. simpl in Hlen. lia.
Qed.

Lemma lstrip_blank_app (l s : string) :
  blank l = true -> lstrip (l ++ s) = lstrip s.
Proof.
  induction l as [|c t IH]; simpl; [reflexivity|].
  intros H. apply andb_true_iff in H as [Hc Ht]. rewrite Hc. now apply IH.
Qed.

Lemma rstrip_blank (r : string) : blank r = true -> rstrip r = EmptyString.
Proof.
  induction r as [|c t IH]; simpl; [reflexivity|].
  intros H. apply andb_true_iff in H as [Hc Ht].
  now rewrite (IH Ht), Hc.
Qed.

Lemma rstrip_app_blank (s r : string) :
  blank r = true -> rstrip (s ++ r) = rstrip s.
Proof.
  intros Hr. induction s as [|c t IH]; simpl.
  - now apply rstrip_blank.
  - now rewrite IH.
Qed.

Lemma strip_padded (l name r : string) :
  trimmed name -> name <> EmptyString ->
  blank l = true -> blank r = true ->
  strip (l ++ name ++ r) = name.
Proof.
  intros [Hl Hr] Hne Hbl Hbr. unfold strip.
  rewrite lstrip_blank_app by assumption.
  destruct name as [|c t]; [contradiction|].
  pose proof (lstrip_fixed_head c t Hl) as Hc.
  change (String c t ++ r)%string with (String c (t ++ r)).
  cbn [lstrip]. rewrite Hc.
  change (String c (t ++ r)) with (String c t ++ r)%string.
  now rewrite rstrip_app_blank.
Qed.

(** X27.  White space around a team name does not matter to the id lookup: a
    padded name finds the id of the name itself, and the feature row holds
    it.  A name that is missing or empty, or not in the table once
    stripped, gets the stand-in id (-1 for home, -2 for away); the row
    never depends on the statistics passed along. *)
Theorem feature_row_ignores_padding
    (T : gmap string Z) (l name r : string) (other : option string)
    (hf af : gmap string Q) :
  trimmed name -> name <> EmptyString ->
  blank l = true -> blank r = true ->
  get_team_id T (Some (l ++ name ++ r)%string) = T !! name /\
  home_team_id (build_feature_row T (Some (l ++ name ++ r)%string) other hf af)
    = default (-1)%Z (T !! name) /\
  away_team_id (build_feature_row T other (Some (l ++ name ++ r)%string) hf af)
    = default (-2)%Z (T !! name) /\
  home_team_id (build_feature_row T None other hf af) = (-1)%Z /\
  away_team_id (build_feature_row T other (Some ""%string) hf af) = (-2)%Z.
Proof.
  intros Ht Hne Hl Hr.
  assert (Hid : get_team_id T (Some (l ++ name ++ r)%string) = T !! name).
  { unfold get_team_id.
    assert (Hnonempty : truthy_str (Some (l ++ name ++ r)%string) = true).
    { simpl. apply negb_true_iff. apply String.eqb_neq.
      destruct l; simpl; [|discriminate].
      destruct name; [contradiction | discriminate]. }
    rewrite Hnonempty. simpl. now rewrite strip_padded. }
  unfold build_feature_row. simpl. rewrite Hid. auto.
Qed.

Lemma feature_row_ignores_padding_witness :
  get_team_id {[ "Boston Celtics"%string := 1610612738%Z ]}
    (Some (" " ++ "Boston Celtics" ++ "  ")%string)
  = ({[ "Boston Celtics"%string := 1610612738%Z ]} : gmap string Z)
      !! "Boston Celtics"%string.
Proof.
  apply (feature_row_ignores_padding
           {[ "Boston Celtics"%string := 1610612738%Z ]}
           " " "Boston Celtics" "  " None ∅ ∅).
  - split; reflexivity.
  - discriminate.
  - reflexivity.
  - reflexivity.
Defined.

End TeamNames.

(** ** The fallback model *)

Section FallbackModel.

Import features.

(** X28.  Without a trained model every feature row gets 0.5, and where the
    injuries file has nothing for the two teams both sides are scored at
    0.5.  The expected value of a side is then decided by the price alone:
    it is positive exactly when the price pays more than even money. *)
Theorem fallback_model_prices_only
    (row : feature_row) (file : injuries.injuries_file)
    (home away : option string) (a : Z) :
  offset (injuries._load_adjustments file) home = 0 ->
  offset (injuries._load_adjustments file) away = 0 ->
  a <> 0%Z ->
  let p_home :=
    injuries.adjust_home_prob file home away (model.predict_proba None row) in
  p_home == 0.5 /\ 1 - p_home == 0.5 /\
  exists b v,
    profit a = Ok b /\ ev_from_prob p_home a = Ok v /\
    (0 < v <-> 1 < b) /\ (0 < v <-> (a > 100)%Z \/ (-100 < a < 0)%Z).
Proof.
  intros Hh Ha Hnz p_home.
  assert (Hp : p_home == 0.5).
  { unfold p_home, injuries.adjust_home_prob.
    rewrite !get_offset, Hh, Ha. reflexivity. }
  split; [assumption|]. split; [rewrite Hp; reflexivity|].
  destruct (profit_defined a Hnz) as (b & Hb & Hbs & Hpos).
  destruct (kelly_of_profit p_home b a Hb Hpos) as [Hev _].
  exists b, (p_home * b - (1 - p_home)).
  split; [assumption|]. split; [assumption|].
  assert (Hsign : 0 < p_home * b - (1 - p_home) <-> 1 < b).
  { rewrite Hp. split; intros H; lra. }
  split; [assumption|]. rewrite Hsign, Hbs. unfold profit_if_win.
  destruct (Z.gtb_spec a 0) as [Hgt|Hle].
  - pose proof (inject_Z_pos a Hgt) as Hz. split.
    + intros H. left.
      assert (H100 : 100 < inject_Z a).
      { destruct (Qlt_le_dec 100 (inject_Z a)) as [?|Hge]; [assumption|].
        assert (inject_Z a / 100 <= 1) by (apply Qle_shift_div_r; lra).
        lra. }
      unfold Qlt in H100. simpl in H100. lia.
    + intros [H|H]; [|lia].
      assert (H100 : 100 < inject_Z a) by (unfold Qlt; simpl; lia).
      apply Qlt_shift_div_l; lra.
  - assert (Hneg : (a < 0)%Z) by lia.
    replace (Z.abs a) with (- a)%Z by lia.
    pose proof (inject_Z_pos (- a) ltac:(lia)) as Hz. split.
    + intros H. right.
      assert (H100 : inject_Z (- a) < 100).
      { destruct (Qlt_le_dec (inject_Z (- a)) 100) as [?|Hge];
          [assumption|].
        assert (100 / inject_Z (- a) <= 1)
          by (apply Qle_shift_div_r; lra).
        lra. }
      unfold Qlt in H100. simpl in H100. lia.
    + intros [H|H]; [lia|].
      assert (H100 : inject_Z (- a) < 100) by (unfold Qlt; simpl; lia).
      apply Qlt_shift_div_l; lra.
Qed.

Lemma fallback_model_prices_only_witness :
  injuries.adjust_home_prob None None None
    (model.predict_proba None
       {| home_team_id := (-1)%Z; away_team_id := (-2)%Z |}) == 0.5.
Proof.
  apply (fallback_model_prices_only
           {| home_team_id := (-1)%Z; away_team_id := (-2)%Z |}
           None None None 120%Z eq_refl eq_refl).
  discriminate.
Defined.

End FallbackModel.

(** ** Pipeline: what a run costs *)

Section RunCost.

Import odds_tool chains.

Lemma rolling_calls (E : stats_tool.env) (w : world) (name : option string)
    (last_n : nat) :
  (live_calls w
   <= live_calls (snd (stats_tool.rolling_team_features E w name last_n))
   <= live_calls w + 2)%nat.
Proof.
  unfold stats_tool.rolling_team_features.
  destruct (name ≫= _) as [team_id|]; simpl; [|lia].
  pose proof (cached_or_fetched_follows E team_id w) as (H & _).
  destruct (stats_tool.cached_or_fetched E w team_id) as [df w1].
  destruct (empty df); [exact H|].
  destruct (empty _); exact H.
Qed.

Lemma lookup_features_calls (C : config) (games : list game) :
  forall w out log w',
    lookup_features C w games = (out, log, w') ->
    (live_calls w <= live_calls w' <= live_calls w + 4 * length games)%nat.
Proof.
  induction games as [|g0 rest IH]; intros w out log w' H; simpl in H.
  - injection H as <- <- <-. simpl. lia.
  - pose proof (rolling_calls (stats C) w (home_team g0) 10) as H1.
    destruct (stats_tool.rolling_team_features (stats C) w (home_team g0) 10)
      as [hf w1].
    pose proof (rolling_calls (stats C) w1 (away_team g0) 10) as H2.
    destruct (stats_tool.rolling_team_features (stats C) w1 (away_team g0) 10)
      as [af w2].
    destruct (lookup_features C w2 rest) as [[out0 log0] w3] eqn:E.
    injection H as <- <- <-.
    specialize (IH _ _ _ _ E). simpl in *. lia.
Qed.

Lemma mapM_length {A B : Type} (f : A -> result B) (l : list A)
    (ys : list B) :
  mapM f l = Ok ys -> length ys = length l.
Proof.
  revert ys. induction l as [|x l IH]; intros ys H; simpl in H.
  - now injection H as <-.
  - destruct (f x); simpl in H; [|discriminate].
    destruct (mapM f l); simpl in H; [|discriminate].
    injection H as <-. simpl. f_equal. now apply IH.
Qed.

(** X19.  A run that succeeds makes at most four live calls to the stats service
    per recommendation (two teams, two attempts each) and looks up two
    names per recommendation; with statistics skipped it makes no lookup
    and leaves the world (clock, cache files, call count) as it was. *)
Theorem run_cost
    (C : config) (response : result (list event)) (w w' : world)
    (recs : list recommendation) (log : list (option string)) :
  NBA_CHAIN C response w = Ok (recs, log, w') ->
  (live_calls w <= live_calls w' <= live_calls w + 4 * length recs)%nat /\
  length log = (if SKIP_STATS C then 0 else 2 * length recs)%nat /\
  (SKIP_STATS C = true -> w' = w).
Proof.
  intros H. unfold NBA_CHAIN in H.
  destruct (fetch_odds response) as [games|e]; simpl in H; [|discriminate].
  destruct (add_team_features C w games) as [[out log0] w0] eqn:Ea.
  destruct (score_vs_market C out) as [scored|e] eqn:Es; simpl in H;
    [|discriminate].
  injection H as <- <- <-.
  assert (Hlen : length (rank_recs scored) = length games).
  { pose proof (Permutation_length (rank_recs_perm scored)) as Hp.
    rewrite length_map in Hp. rewrite Hp.
    rewrite (mapM_length _ _ _ Es).
    destruct (add_team_features_spec _ _ _ _ _ _ Ea) as [<- _].
    now rewrite length_map. }
  rewrite Hlen.
  destruct (add_team_features_spec _ _ _ _ _ _ Ea) as [_ Hlog].
  unfold add_team_features in Ea.
  destruct (SKIP_STATS C).
  - injection Ea as _ _ <-. subst log0. simpl.
    split; [lia|]. split; [reflexivity | auto].
  - split; [now apply (lookup_features_calls C games w out log0 w0)|].
    split; [|discriminate].
    subst log0. clear. induction games as [|g0 rest IH]; simpl; [reflexivity|].
    rewrite IH. lia.
Qed.

Lemma run_cost_witness :
  exists recs log w',
    NBA_CHAIN fallback_config (Ok [named_event]) old_cache_world
      = Ok (recs, log, w') /\
    w' = old_cache_world.
Proof.
  destruct (NBA_CHAIN fallback_config (Ok [named_event]) old_cache_world)
    as [[[recs log] w']|] eqn:H; [|vm_compute in H; discriminate].
  exists recs, log, w'. split; [reflexivity|].
  apply (run_cost fallback_config (Ok [named_event]) old_cache_world w'
           recs log H).
  reflexivity.
Defined.

End RunCost.

(** ** Ranker: the order of the output *)

Section RankOrder.

Import chains.

(** X17.  [rank_recs] returns one recommendation per scored game, the same
    games, ordered by metric from high to low with an absent metric
    counting as -999; recommendations of equal metric keep the order their
    games came in. *)
Theorem rank_recs_is_stable_sort (l : list scored) :
  Permutation (List.map rec (rank_recs l)) l /\
  length (rank_recs l) = length l /\
  StronglySorted (fun a b => sort_key b <= sort_key a) (rank_recs l) /\
  (forall k : Q,
     List.filter (fun r => Qeq_bool (sort_key r) k) (rank_recs l)
     = List.filter (fun r => Qeq_bool (sort_key r) k) (List.map pick l)).
Proof.
  split; [apply rank_recs_perm|]. split; [|split].
  - rewrite <- (length_map rec). apply Permutation_length, rank_recs_perm.
  - apply (sort_desc_sorted sort_key).
  - intros k. apply (sort_desc_stable sort_key).
Qed.

End RankOrder.

Lemma choose_better_moneyline_raises_witness :
  exists e, odds_tool._choose_better_moneyline (Some 0%Z) (Some 100%Z)
            = Raise e.
Proof.
  apply (proj2 (proj2 (choose_better_moneyline_raises (Some 0%Z) (Some 100%Z)))).
  exists 0%Z, 100%Z. auto.
Defined.
